(** * ditherboss: the asset combiner of [src/run.py]

    A shallow embedding of [collect_files], [combine_files] and [main],
    and the properties of the collector and the combiner.

    Modelling conventions.
    - A Python [str] is the [string] of the bytes of its code points in
      UTF-8; a lone surrogate, by which Python escapes a byte of a file name
      that is not UTF-8, is written in the same scheme (the bytes ED, A0..BF,
      80..BF).  The order of [String.compare] on these bytes is the order of
      the code points, by which [sorted] compares; a name can be encoded by
      the strict UTF-8 codec when it holds no surrogate ([encodable]).
    - [str.lower] is the Unicode lowercasing.  It is a parameter
      ([Lowercase]): any function that, on a string of ASCII characters,
      lowercases the letters A-Z, and whose result holds none of these
      letters; the properties hold for every such function, and the sample
      runs, on ASCII names, use [ascii_lowercase].
    - [os.path.join] is [posixpath.join] with two arguments.
    - The directory tree below the scanned folder is a [node]: what
      [os.scandir], [os.listdir], [DirEntry.is_dir] and [os.path.isfile]
      answer, in directory order.  A directory whose listing raises is
      [Unlistable]; a symbolic link to a directory, which [os.walk] reports
      but does not enter, is seen by the collector exactly like one.
    - The files that [open] sees are a finite map from the path handed to
      [open] to the state of that file.  A file has one path in it: two
      spellings of one file ([x.ts] and [./x.ts], a link and its target)
      are not modelled, and a property that tells the destination from
      the sources tells files apart.  The standard output takes UTF-8,
      as the destination does, and the device does not fail a write.
    - A call that may raise, or never return, gives a [result]. *)

From Stdlib Require Import Ascii String.
From stdpp Require Import base option list sorting strings gmap pretty.

(** ** Exceptions and results *)

Inductive exn :=
| FileNotFoundError (filename : string)
| NotADirectoryError (filename : string)
| OSError (strerror : string)
| UnicodeEncodeError.

(** [str(e)], as the f-string of the combiner prints it. *)
Definition str_exn (e : exn) : string :=
  match e with
  | FileNotFoundError f => "[Errno 2] No such file or directory: '" +:+ f +:+ "'"
  | NotADirectoryError f => "[Errno 20] Not a directory: '" +:+ f +:+ "'"
  | OSError m => m
  | UnicodeEncodeError => "'utf-8' codec can't encode: surrogates not allowed"
  end.

(** The call returns, raises, or blocks and never returns. *)
Inductive result (A : Type) :=
| Ok (a : A)
| Raise (e : exn)
| Blocks.
Arguments Ok {A} a.
Arguments Raise {A} e.
Arguments Blocks {A}.

(** Sequencing: an exception of the first call leaves through the second,
    and nothing follows a call that does not return. *)
Definition bind {A B : Type} (r : result A) (k : A → result B) : result B :=
  match r with
  | Ok a => k a
  | Raise e => Raise e
  | Blocks => Blocks
  end.

Notation "'let*' x ':=' r 'in' k" := (bind r (λ x, k))
  (at level 10, x pattern, r at level 100, k at level 200).

(** ** Strings *)

Definition lower_char (c : ascii) : ascii :=
  let n := N_of_ascii c in
  if ((65 <=? n) && (n <=? 90))%N then ascii_of_N (n + 32) else c.

(** Lowercasing of the letters A-Z. *)
Fixpoint ascii_lower (s : string) : string :=
  match s with
  | EmptyString => EmptyString
  | String c s' => String (lower_char c) (ascii_lower s')
  end.

Fixpoint is_ascii (s : string) : bool :=
  match s with
  | EmptyString => true
  | String c s' => (N_of_ascii c <? 128)%N && is_ascii s'
  end.

(** One of the letters A-Z. *)
Definition is_upper (c : ascii) : bool :=
  let n := N_of_ascii c in ((65 <=? n) && (n <=? 90))%N.

Fixpoint has_upper (s : string) : bool :=
  match s with
  | EmptyString => false
  | String c s' => is_upper c || has_upper s'
  end.

Lemma lower_char_no_upper (c : ascii) : is_upper (lower_char c) = false.
Proof. by destruct c as [[] [] [] [] [] [] [] []]. Qed.

Lemma ascii_lower_no_upper (s : string) : has_upper (ascii_lower s) = false.
Proof.
  induction s as [|c s IH]; [done|].
  cbn [ascii_lower has_upper]. by rewrite lower_char_no_upper, IH.
Qed.

(** [s.lower()]: the lowercasing of Unicode, of which the model takes what
    it does on a string of ASCII characters, and that it leaves none of the
    letters A-Z (a byte from 41 to 5A is, in UTF-8, one of these letters). *)
Class Lowercase := {
  lower : string → string;
  lower_of_ascii : ∀ s, is_ascii s = true → lower s = ascii_lower s;
  lower_no_upper : ∀ s, has_upper (lower s) = false
}.

Global Instance ascii_lowercase : Lowercase :=
  {| lower := ascii_lower;
     lower_of_ascii := λ _ _, eq_refl;
     lower_no_upper := ascii_lower_no_upper |}.

(** [s.encode("utf-8")] would not raise: [s] holds no surrogate, that is,
    no byte ED followed by a byte from A0 to BF. *)
Definition surrogate_lead (c c' : ascii) : bool :=
  ((N_of_ascii c =? 237) && (160 <=? N_of_ascii c') && (N_of_ascii c' <=? 191))%N.

Fixpoint encodable (s : string) : bool :=
  match s with
  | String c (String c' _ as s') => negb (surrogate_lead c c') && encodable s'
  | _ => true
  end.

(** [s.endswith(suffix)] for one suffix: some tail of [s] is [suffix]. *)
Fixpoint endswith1 (s suffix : string) : bool :=
  String.eqb s suffix ||
  match s with
  | EmptyString => false
  | String _ s' => endswith1 s' suffix
  end.

(** [s.endswith(suffixes)] for a tuple of suffixes. *)
Definition endswith (s : string) (suffixes : list string) : bool :=
  existsb (endswith1 s) suffixes.

(** [s.startswith(prefix)] *)
Fixpoint startswith (s prefix : string) {struct prefix} : bool :=
  match prefix, s with
  | EmptyString, _ => true
  | String _ _, EmptyString => false
  | String a prefix', String b s' => Ascii.eqb b a && startswith s' prefix'
  end.

(** [posixpath.join(a, b)] *)
Definition join (a b : string) : string :=
  if startswith b "/" then b
  else if String.eqb a "" || endswith1 a "/" then a +:+ b
  else a +:+ "/" +:+ b.

(** [c * n] for a one-character string *)
Fixpoint str_repeat (s : string) (n : nat) : string :=
  match n with
  | O => ""
  | S n' => s +:+ str_repeat s n'
  end.

(** ** [sorted] on strings *)

Definition str_le (a b : string) : Prop := String.leb a b = true.
Definition str_lt (a b : string) : Prop := String.ltb a b = true.

Global Instance str_le_dec a b : Decision (str_le a b).
Proof. unfold str_le. apply _. Defined.

Definition sorted (l : list string) : list string := merge_sort str_le l.

(** ** The directory tree *)

#[warnings="-register-all"]
Inductive node :=
| File (regular : bool)
| Dir (entries : list (string * node))
| Unlistable (e : exn).

(** [DirEntry.is_dir()] *)
Definition is_dir (n : node) : bool :=
  match n with
  | File _ => false
  | _ => true
  end.

(** [os.path.isfile(path)] *)
Definition isfile (n : node) : bool :=
  match n with
  | File regular => regular
  | _ => false
  end.

(** [os.scandir(top)] and [os.listdir(top)]: the entries, or the error. *)
Definition scandir (top : string) (n : node) : result (list (string * node)) :=
  match n with
  | Dir entries => Ok entries
  | Unlistable e => Raise e
  | File _ => Raise (NotADirectoryError top)
  end.

Definition listdir (top : string) (n : node) : result (list (string * node)) :=
  scandir top n.

(** [os.walk(top)], top-down, with the default [onerror=None]: an error of
    [scandir] is swallowed and the directory yields nothing.  The triples
    are [(root, dirs, files)]; [files] are the entries that are not
    directories. *)
Fixpoint walk (top : string) (n : node)
  : list (string * list string * list string) :=
  match n with
  | Dir entries =>
      (top,
       (filter (λ ne, is_dir ne.2 = true) entries).*1,
       (filter (λ ne, is_dir ne.2 = false) entries).*1)
      :: (entries ≫= λ ne,
            if is_dir ne.2 then walk (join top ne.1) ne.2 else [])
  | File _ | Unlistable _ => []
  end.

(** ** The collector *)

Definition collect_files {L : Lowercase} (folder : string)
    (extensions : list string) (recursive : bool) (fs : node)
  : result (list string) :=
  let* found_files :=
    (if recursive then
       Ok (walk folder fs ≫= λ '(root, dirs, files),
             (λ file, join root file) <$>
               filter (λ file, endswith (lower file) extensions = true) files)
     else
       let* entries := listdir folder fs in
       Ok ((λ ne, join folder ne.1) <$>
             filter (λ ne, isfile ne.2 && endswith (lower ne.1) extensions = true)
               entries))
  in Ok (sorted found_files).

(** ** The combiner *)

(** The state of a path as [open] finds it: a text file with its decoded
    content ([errors="ignore"]: decoding never fails, and the text holds
    no surrogate), a path every [open] of which raises, or a FIFO without
    a peer, on which [open] blocks.  A path that is not in the map does
    not exist. *)
Inductive fobj :=
| Text (content : string)
| NoAccess (e : exn)
| Fifo.

Record world := World {
  disk : gmap string fobj;      (* what open() sees *)
  stdout : list string          (* one element for each call of print *)
}.

(** [open(path, "r", encoding="utf-8", errors="ignore").read()] *)
Definition read_text (path : string) (d : gmap string fobj) : result string :=
  match d !! path with
  | Some (Text content) => Ok content
  | Some (NoAccess e) => Raise e
  | Some Fifo => Blocks
  | None => Raise (FileNotFoundError path)
  end.

(** [open(path, "w", encoding="utf-8")]: creates or truncates the file. *)
Definition open_w (path : string) (d : gmap string fobj)
  : result (gmap string fobj) :=
  match d !! path with
  | Some (NoAccess e) => Raise e
  | Some Fifo => Blocks
  | _ => Ok (<[path := Text ""]> d)
  end.

(** The loop state: the text written to [out] so far, and the lines
    printed so far. *)
Record run := Run {
  out : string;
  printed : list string
}.

(** [out.write(s)] and [print(s)]: the text is encoded on the way, by the
    strict UTF-8 codec, which raises on a surrogate.  Where the standard
    output escapes a surrogate instead, the same exception comes from the
    write of the header line that holds the path, a few lines below. *)
Definition write (s : string) (r : run) : result run :=
  if encodable s then Ok (Run (out r +:+ s) (printed r))
  else Raise UnicodeEncodeError.

Definition print (s : string) (r : run) : result run :=
  if encodable s then Ok (Run (out r) (printed r ++ [s]))
  else Raise UnicodeEncodeError.

(** The same for a text that cannot fail to encode: what [read] returned,
    which was decoded with the errors ignored, and the diagnostic, whose
    path the loop has printed before and in which [str(e)] quotes a file
    name escaped. *)
Definition write_decoded (s : string) (r : run) : run :=
  Run (out r +:+ s) (printed r).

Definition print_escaped (s : string) (r : run) : run :=
  Run (out r) (printed r ++ [s]).

(** The body of the [for] loop of [combine_files].  The [print] and the
    writes of the header stand before the [try]: their exception leaves the
    loop.  The [try] catches what the read raises; a read that blocks is
    not an exception. *)
Definition add_file (d : gmap string fobj) (r : run) (file_path : string)
  : result run :=
  let* r := print ("Adding: " +:+ file_path) r in
  let* r := write "
" r in
  let* r := write (str_repeat "=" 60 +:+ "
") r in
  let* r := write ("FILE: " +:+ file_path +:+ "
") r in
  let* r := write (str_repeat "=" 60 +:+ "

") r in
  match read_text file_path d with
  | Ok text =>
      let r := write_decoded text r in
      Ok (write_decoded "

" r)
  | Raise e =>
      Ok (print_escaped
            ("Failed to read " +:+ file_path +:+ ": " +:+ str_exn e) r)
  | Blocks => Blocks
  end.

(** [for x in l: body], from the state [a]. *)
Fixpoint for_each {A B : Type} (body : A → B → result A) (a : A) (l : list B)
  : result A :=
  match l with
  | [] => Ok a
  | x :: l' => let* a' := body a x in for_each body a' l'
  end.

(** The [with] statement closes [out] when the loop is done.  An exception
    of the loop leaves through it; the model keeps the exception and not
    the part of the file that was written. *)
Definition combine_files (file_list : list string) (output_file : string)
    (w : world) : result world :=
  let* d := open_w output_file (disk w) in
  let* r := for_each (add_file d) (Run "" (stdout w)) file_list in
  Ok (World (<[output_file := Text (out r)]> d) (printed r)).

(** [open(path, "w")] would return. *)
Definition writable (d : gmap string fobj) (path : string) : bool :=
  match d !! path with
  | Some (NoAccess _) | Some Fifo => false
  | _ => true
  end.

(** ** Main *)

Definition INPUT_FOLDER : string := "./".
Definition OUTPUT_FILE : string := "combined_assets.txt".
Definition INCLUDE_SUBFOLDERS : bool := true.

Definition say (s : string) (w : world) : world :=
  World (disk w) (stdout w ++ [s]).

(** [fs] is the tree that the traversal of [INPUT_FOLDER] finds. *)
Definition main {L : Lowercase} (fs : node) (w : world) : result world :=
  let w := say "Scanning for JS and CSS files..." w in
  let extensions := [".tsx"; ".css"; ".ts"] in
  let* files :=
    collect_files INPUT_FOLDER extensions INCLUDE_SUBFOLDERS fs in
  let w := say ("Found " +:+ pretty (length files) +:+ " files") w in
  match files with
  | [] => Ok (say "No files found." w)
  | _ :: _ =>
      let* w := combine_files files OUTPUT_FILE w in
      Ok (say ("
Done. Combined file saved as: " +:+ OUTPUT_FILE) w)
  end.

(** ** Vocabulary of the properties *)

(** The filter of the collector: the lowercased name ends with one of the
    extensions. *)
Definition matches {L : Lowercase} (extensions : list string) (name : string)
  : bool :=
  endswith (lower name) extensions.

(** The filter in the words of its description: the suffix is compared
    with the extension without regard to case, in the name and in the
    extension. *)
Definition matches_any_case {L : Lowercase} (extensions : list string)
    (name : string) : bool :=
  existsb (λ e, endswith1 (lower name) (lower e)) extensions.

(** A file (an entry that is not a directory) lies under the root, in the
    chain [dirs] of subdirectories, with the name [name]; [regular] is
    what [os.path.isfile] answers for it. *)
Inductive under : node → list string → string → bool → Prop :=
| under_here entries name regular :
    (name, File regular) ∈ entries →
    under (Dir entries) [] name regular
| under_sub entries d child dirs name regular :
    (d, child) ∈ entries →
    under child dirs name regular →
    under (Dir entries) (d :: dirs) name regular.

(** The path the collector records for that file: the names joined to the
    folder, one [os.path.join] for each level. *)
Definition file_path (folder : string) (dirs : list string) (name : string)
  : string :=
  join (foldl join folder dirs) name.

(** Names as a directory holds them: not empty, without a separator, and
    no name twice in one directory. *)
Fixpoint no_slash (s : string) : bool :=
  match s with
  | EmptyString => true
  | String c s' => negb (Ascii.eqb c "/"%char) && no_slash s'
  end.

Definition valid_name (s : string) : bool :=
  negb (String.eqb s "") && no_slash s.

Fixpoint wf_node (n : node) : bool :=
  match n with
  | Dir entries =>
      bool_decide (NoDup entries.*1)
      && forallb (λ ne, valid_name ne.1 && wf_node ne.2) entries
  | File _ | Unlistable _ => true
  end.

(** The same tree listed in another directory order, at every level. *)
#[warnings="-register-all"]
Inductive reorder : node → node → Prop :=
| reorder_File regular : reorder (File regular) (File regular)
| reorder_Unlistable e : reorder (Unlistable e) (Unlistable e)
| reorder_Dir entries entries' entries'' :
    Forall2 (λ ne ne', ne.1 = ne'.1 ∧ reorder ne.2 ne'.2) entries entries' →
    entries' ≡ₚ entries'' →
    reorder (Dir entries) (Dir entries'').

(** The paths the two branches of [collect_files] append to [found_files],
    in the order of the appends. *)
Definition found_recursive {L : Lowercase} (folder : string)
    (extensions : list string) (fs : node) : list string :=
  walk folder fs ≫= λ '(root, dirs, files),
    (λ file, join root file) <$>
      filter (λ file, endswith (lower file) extensions = true) files.

Definition found_flat {L : Lowercase} (folder : string)
    (extensions : list string) (entries : list (string * node)) : list string :=
  (λ ne, join folder ne.1) <$>
    filter (λ ne, isfile ne.2 && endswith (lower ne.1) extensions = true) entries.

(** What [join] puts between [a] and a relative name. *)
Definition join_sep (a : string) : string :=
  if String.eqb a "" || endswith1 a "/" then "" else "/".

(** The path of a file relative to the folder. *)
Fixpoint rel_path (dirs : list string) (name : string) : string :=
  match dirs with
  | [] => name
  | d :: dirs' => d +:+ "/" +:+ rel_path dirs' name
  end.

(** The errors [os.scandir] raises while [os.walk] runs (those the walk
    would hand to [onerror]), and the errors a traversal of [collect_files]
    meets in either mode. *)
Fixpoint walk_errors (top : string) (n : node) : list exn :=
  match n with
  | Dir entries =>
      entries ≫= λ ne,
        if is_dir ne.2 then walk_errors (join top ne.1) ne.2 else []
  | File _ => [NotADirectoryError top]
  | Unlistable e => [e]
  end.

Definition traversal_errors (folder : string) (recursive : bool) (fs : node)
  : list exn :=
  if recursive then walk_errors folder fs
  else match listdir folder fs with
       | Ok _ | Blocks => []
       | Raise e => [e]
       end.

(** A path that begins with a dot or a separator. *)
Definition rooted (s : string) : bool :=
  startswith s "." || startswith s "/".

(** The folder as the next run finds it: unchanged, or with the output
    file of the previous run somewhere in its listing. *)
Inductive next_snapshot : node → node → Prop :=
| snapshot_same fs : next_snapshot fs fs
| snapshot_output entries entries' :
    entries' ≡ₚ (OUTPUT_FILE, File true) :: entries →
    next_snapshot (Dir entries) (Dir entries').

(** The output format, in the words of its description: each block is a
    blank line, a line of 60 [=], the line [FILE: <path>], another line of
    60 [=], a blank line, the content, and two newline characters. *)
Definition newline : string := "
".

Definition line (s : string) : string := s +:+ newline.

Definition separator : string :=
  "============================================================".

Definition header (path : string) : string :=
  line "" +:+ line separator +:+ line ("FILE: " +:+ path)
  +:+ line separator +:+ line "".

Definition block (path content : string) : string :=
  header path +:+ content +:+ newline +:+ newline.

Definition str_concat (l : list string) : string :=
  foldr String.append "" l.

(** What one file adds below its header, and what it adds to the lines
    printed: the body of a readable file, the diagnostic of a failed one. *)
Definition body (d : gmap string fobj) (path : string) : string :=
  match read_text path d with
  | Ok content => content +:+ newline +:+ newline
  | Raise _ | Blocks => ""
  end.

Definition report (d : gmap string fobj) (path : string) : list string :=
  ("Adding: " +:+ path) ::
  match read_text path d with
  | Ok _ | Blocks => []
  | Raise e => ["Failed to read " +:+ path +:+ ": " +:+ str_exn e]
  end.

(** The loop gets past this path: its name can be encoded and its [open]
    returns or raises. *)
Definition passes (d : gmap string fobj) (path : string) : bool :=
  encodable path &&
  match read_text path d with
  | Blocks => false
  | _ => true
  end.

(** ** A sample run *)

(** A folder with [a/x.TS], [b.css], [skip.txt], a link [a/link.ts] whose
    target is missing, and a subdirectory that cannot be listed. *)
Definition sample_tree : node :=
  Dir [("b.css", File true); ("skip.txt", File true);
       ("a", Dir [("x.TS", File true); ("link.ts", File false)]);
       ("locked", Unlistable (OSError "[Errno 13] Permission denied: './locked'"))].

Definition sample_extensions : list string := [".tsx"; ".css"; ".ts"].

Definition sample_disk : gmap string fobj :=
  {[ "./a/x.TS" := Text "A"; "./b.css" := Text "B";
     "combined_assets.txt" := Text "old" ]}.

Definition sample_world : world := World sample_disk [].

(** A folder without a matching file. *)
Definition other_tree : node := Dir [("skip.txt", File true)].

Definition sample_sources : list (string * string) :=
  [("./a/x.TS", "A"); ("./b.css", "B")].

Definition sample_files : list string :=
  ["./a/link.ts"; "./a/x.TS"; "./b.css"].

(** The sample world after one run of [main]. *)
Definition sample_after : world :=
  Eval vm_compute in
    match main sample_tree sample_world with
    | Ok w => w
    | _ => sample_world
    end.

(** The lines printed before the sample run, and the sample world after
    [combine_files] on the sample files. *)
Definition earlier_world : world := World sample_disk ["earlier"].

Definition sample_combined : world :=
  Eval vm_compute in
    match combine_files sample_files OUTPUT_FILE earlier_world with
    | Ok w => w
    | _ => earlier_world
    end.

(** A folder with [b.css] and a file whose name is the byte FF followed by
    [.ts], which is not UTF-8: Python reads the name as the surrogate
    U+DCFF followed by [.ts]. *)
Definition escaped_name : string :=
  String (ascii_of_N 237) (String (ascii_of_N 179) (String (ascii_of_N 191) ".ts")).

Definition escaped_path : string := Eval vm_compute in "./" +:+ escaped_name.

Definition escaped_tree : node :=
  Dir [("b.css", File true); (escaped_name, File true)].

Definition escaped_disk : gmap string fobj :=
  {[ "./b.css" := Text "B"; escaped_path := Text "A" ]}.

Definition escaped_sources : list (string * string) :=
  [("./b.css", "B"); (escaped_path, "A")].

(** A folder with [b.css] and a FIFO [pipe.ts] that no process writes
    to. *)
Definition fifo_tree : node :=
  Dir [("b.css", File true); ("pipe.ts", File false)].

Definition fifo_disk : gmap string fobj :=
  {[ "./b.css" := Text "B"; "./pipe.ts" := Fifo ]}.

(** * Properties *)

Ltac elem_here :=
  repeat first [apply list_elem_of_here | apply list_elem_of_further].

Section properties.
Context {L : Lowercase}.

(** ** Induction on trees *)

Section node_induction.
Variable P : node → Prop.
Hypothesis HFile : ∀ regular, P (File regular).
Hypothesis HUnlistable : ∀ e, P (Unlistable e).
Hypothesis HDir : ∀ entries, Forall (λ ne, P ne.2) entries → P (Dir entries).

Fixpoint node_induction (n : node) : P n :=
  match n with
  | File regular => HFile regular
  | Unlistable e => HUnlistable e
  | Dir entries =>
      HDir entries
        ((fix go (l : list (string * node)) : Forall (λ ne, P ne.2) l :=
            match l with
            | [] => Forall_nil_2 _
            | ne :: l' => Forall_cons_2 _ ne l' (node_induction ne.2) (go l')
            end) entries)
  end.
End node_induction.

(** ** The order of strings *)

Lemma ascii_compare_spec (a b : ascii) :
  CompareSpec (a = b) (N_of_ascii a < N_of_ascii b)%N
    (N_of_ascii b < N_of_ascii a)%N (Ascii.compare a b).
Proof.
  unfold Ascii.compare.
  destruct (N.compare_spec (N_of_ascii a) (N_of_ascii b)) as [H|H|H];
    constructor; try done.
  apply (f_equal ascii_of_N) in H. by rewrite !ascii_N_embedding in H.
Qed.

Lemma compare_refl (s : string) : String.compare s s = Eq.
Proof.
  induction s as [|c s IH]; simpl; [done|].
  destruct (ascii_compare_spec c c); try lia. done.
Qed.

Lemma compare_eq (a b : string) : String.compare a b = Eq ↔ a = b.
Proof.
  split; [apply String.compare_eq_iff|]. intros ->. apply compare_refl.
Qed.

Lemma str_le_alt (a b : string) : str_le a b ↔ String.compare a b ≠ Gt.
Proof. unfold str_le, String.leb. destruct (String.compare a b); naive_solver. Qed.

Lemma str_lt_alt (a b : string) : str_lt a b ↔ String.compare a b = Lt.
Proof. unfold str_lt, String.ltb. destruct (String.compare a b); naive_solver. Qed.

Lemma str_lt_le_ne (a b : string) : str_lt a b ↔ str_le a b ∧ a ≠ b.
Proof.
  rewrite str_lt_alt, str_le_alt, <- compare_eq.
  destruct (String.compare a b); intuition congruence.
Qed.

Global Instance str_le_trans : Transitive str_le.
Proof.
  intros a. induction a as [|x a IH]; intros [|y b] [|z c];
    rewrite !str_le_alt; simpl; try done.
  intros Hab Hbc.
  destruct (ascii_compare_spec x y), (ascii_compare_spec y z),
    (ascii_compare_spec x z); subst; try done; try lia.
  rewrite <- str_le_alt. eapply IH; by apply str_le_alt.
Qed.

Global Instance str_le_total : Total str_le.
Proof. intros a b. apply String.leb_total. Qed.

Global Instance str_le_antisymm : AntiSymm (=) str_le.
Proof. intros a b. apply String.leb_antisym. Qed.

Global Instance str_le_refl : Reflexive str_le.
Proof. intros a. apply str_le_alt. by rewrite compare_refl. Qed.

(** ** [sorted] *)

Lemma sorted_Permutation (l : list string) : sorted l ≡ₚ l.
Proof. apply merge_sort_Permutation. Qed.

Lemma sorted_ascending (l : list string) : StronglySorted str_le (sorted l).
Proof. apply StronglySorted_merge_sort; apply _. Qed.

Lemma sorted_elem_of (l : list string) (x : string) : x ∈ sorted l ↔ x ∈ l.
Proof. by rewrite sorted_Permutation. Qed.

Lemma sorted_order_blind (l l' : list string) : l ≡ₚ l' → sorted l = sorted l'.
Proof.
  intros Hp. apply (StronglySorted_unique str_le); try apply sorted_ascending.
  by rewrite !sorted_Permutation.
Qed.

Lemma ascending_strict (l : list string) :
  StronglySorted str_le l → NoDup l → StronglySorted str_lt l.
Proof.
  induction 1 as [|x l Hs IH Hx]; intros Hnd; [constructor|].
  apply NoDup_cons in Hnd as [Hnotin Hnd].
  constructor; [by apply IH|].
  rewrite Forall_forall in Hx |- *. intros y Hy.
  apply str_lt_le_ne. split; [by apply Hx|]. intros ->. done.
Qed.

Lemma sorted_strict (l : list string) :
  NoDup l → StronglySorted str_lt (sorted l).
Proof.
  intros Hnd. apply ascending_strict; [apply sorted_ascending|].
  by rewrite sorted_Permutation.
Qed.

Lemma sorted_nil_inv (l : list string) : sorted l = [] → l = [].
Proof.
  intros H. apply Permutation_nil_r. rewrite <- H. symmetry. apply sorted_Permutation.
Qed.

(** ** Strings and paths *)

Lemma app_empty_l (s : string) : "" +:+ s = s.
Proof. done. Qed.

Lemma app_String (c : ascii) (s t : string) :
  String c s +:+ t = String c (s +:+ t).
Proof. done. Qed.

Lemma app_empty_r (s : string) : s +:+ "" = s.
Proof. induction s as [|c s IH]; [done|]. by rewrite app_String, IH. Qed.

Lemma app_assoc_str (a b c : string) : (a +:+ b) +:+ c = a +:+ b +:+ c.
Proof. induction a as [|x a IH]; [done|]. by rewrite !app_String, IH. Qed.

Lemma app_eq_empty (a b : string) : a +:+ b = "" → a = "" ∧ b = "".
Proof. destruct a; [done|]. by rewrite app_String. Qed.

Lemma endswith1_spec (s suffix : string) :
  endswith1 s suffix = true ↔ ∃ pre, s = pre +:+ suffix.
Proof.
  induction s as [|c s IH].
  - change (endswith1 "" suffix) with (String.eqb "" suffix || false).
    rewrite orb_true_iff, String.eqb_eq. split.
    + intros [<-|?]; [by exists ""|done].
    + intros [pre H]. symmetry in H. apply app_eq_empty in H as [_ ->]. by left.
  - change (endswith1 (String c s) suffix)
      with (String.eqb (String c s) suffix || endswith1 s suffix).
    rewrite orb_true_iff, String.eqb_eq, IH. split.
    + intros [<-|[pre ->]]; [by exists ""|]. by exists (String c pre).
    + intros [[|c' pre] H].
      * left. by rewrite app_empty_l in H.
      * right. rewrite app_String in H. injection H as _ ->. by exists pre.
Qed.

Lemma no_slash_app (a b : string) :
  no_slash (a +:+ b) = no_slash a && no_slash b.
Proof.
  induction a as [|c a IH]; [done|].
  rewrite app_String. simpl. by rewrite IH, andb_assoc.
Qed.

Lemma no_slash_sep (a b : string) : no_slash (a +:+ "/" +:+ b) = false.
Proof. rewrite !no_slash_app. simpl. apply andb_false_r. Qed.

Lemma no_slash_sep_r (a : string) : no_slash (a +:+ "/") = false.
Proof. rewrite no_slash_app. simpl. apply andb_false_r. Qed.

Lemma no_slash_startswith (s : string) :
  no_slash s = true → startswith s "/" = false.
Proof.
  destruct s as [|c s]; [done|]. cbn [no_slash startswith].
  intros [H _]%andb_true_iff. apply negb_true_iff in H. by rewrite H.
Qed.

Lemma no_slash_last (pre x d : string) :
  x +:+ d = pre +:+ "/" → d = "" ∨ no_slash d = false.
Proof.
  revert x d. induction pre as [|c pre IH]; intros [|c' x] d;
    rewrite ?app_String, ?app_empty_l.
  - intros ->. by right.
  - intros [= -> H]. apply app_eq_empty in H as [_ ->]. by left.
  - intros ->. right. simpl. rewrite no_slash_sep_r. apply andb_false_r.
  - intros [= -> H]. by apply IH in H.
Qed.

Lemma valid_name_spec (s : string) :
  valid_name s = true ↔ s ≠ "" ∧ no_slash s = true.
Proof.
  unfold valid_name. by rewrite andb_true_iff, negb_true_iff, String.eqb_neq.
Qed.

Lemma join_valid (a b : string) :
  valid_name b = true → join a b = a +:+ join_sep a +:+ b.
Proof.
  intros [_ Hb]%valid_name_spec. unfold join, join_sep.
  rewrite (no_slash_startswith b Hb).
  by destruct (String.eqb a "" || endswith1 a "/").
Qed.

Lemma join_sep_after (x d : string) :
  valid_name d = true → join_sep (x +:+ d) = "/".
Proof.
  intros [Hne Hd]%valid_name_spec. unfold join_sep.
  destruct (String.eqb (x +:+ d) "") eqn:He.
  { apply String.eqb_eq, app_eq_empty in He as [_ ?]. done. }
  destruct (endswith1 (x +:+ d) "/") eqn:Hs; [|done].
  apply endswith1_spec in Hs as [pre Hs].
  apply no_slash_last in Hs as [?|Hs]; [done|]. by rewrite Hd in Hs.
Qed.

Lemma file_path_rel_path (folder : string) (dirs : list string) (name : string) :
  Forall (λ d, valid_name d = true) dirs → valid_name name = true →
  file_path folder dirs name = folder +:+ join_sep folder +:+ rel_path dirs name.
Proof.
  intros Hds Hname. revert folder.
  induction Hds as [|d dirs Hd _ IH]; intros folder.
  - by apply join_valid.
  - unfold file_path in *. simpl. rewrite IH, (join_valid folder d Hd).
    rewrite <- (app_assoc_str folder), (join_sep_after _ d Hd).
    by rewrite !app_assoc_str.
Qed.

Lemma sep_split (d d' x x' : string) :
  no_slash d = true → no_slash d' = true →
  d +:+ "/" +:+ x = d' +:+ "/" +:+ x' → d = d' ∧ x = x'.
Proof.
  revert d'. induction d as [|c d IH]; intros [|c' d'];
    rewrite ?app_String, ?app_empty_l; cbn [no_slash].
  - by intros _ _ [= ->].
  - intros _ [H _]%andb_true_iff [= <- _]. done.
  - intros [H _]%andb_true_iff _ [= -> _]. done.
  - intros [_ H]%andb_true_iff [_ H']%andb_true_iff [= -> Heq].
    destruct (IH d' H H' Heq) as [-> ->]. done.
Qed.

Lemma rel_path_inj (dirs dirs' : list string) (name name' : string) :
  Forall (λ d, valid_name d = true) dirs → valid_name name = true →
  Forall (λ d, valid_name d = true) dirs' → valid_name name' = true →
  rel_path dirs name = rel_path dirs' name' → dirs = dirs' ∧ name = name'.
Proof.
  intros Hds [_ Hn]%valid_name_spec Hds' [_ Hn']%valid_name_spec.
  revert dirs' Hds'. induction Hds as [|d dirs Hd _ IH];
    intros dirs' Hds'; destruct Hds' as [|d' dirs' Hd' Hds']; simpl.
  - done.
  - intros ->. by rewrite no_slash_sep in Hn.
  - intros <-. by rewrite no_slash_sep in Hn'.
  - apply valid_name_spec in Hd as [_ Hd]. apply valid_name_spec in Hd' as [_ Hd'].
    intros [-> Heq]%sep_split; [|done..].
    destruct (IH dirs' Hds' Heq) as [-> ->]. done.
Qed.

Lemma file_path_inj (folder : string) (dirs dirs' : list string)
    (name name' : string) :
  Forall (λ d, valid_name d = true) dirs → valid_name name = true →
  Forall (λ d, valid_name d = true) dirs' → valid_name name' = true →
  file_path folder dirs name = file_path folder dirs' name' →
  dirs = dirs' ∧ name = name'.
Proof.
  intros Hds Hn Hds' Hn'. rewrite !file_path_rel_path by done.
  intros Heq. do 2 apply (inj (String.app _)) in Heq.
  by apply rel_path_inj.
Qed.

(** ** Well-formed trees and the files under them *)

Lemma wf_node_Dir (entries : list (string * node)) :
  wf_node (Dir entries) = true ↔
  NoDup entries.*1 ∧
  ∀ name child, (name, child) ∈ entries →
    valid_name name = true ∧ wf_node child = true.
Proof.
  cbn [wf_node]. rewrite andb_true_iff, bool_decide_eq_true, forallb_forall.
  apply and_iff_compat_l. split.
  - intros H name child Hin. apply list_elem_of_In, H in Hin.
    by apply andb_true_iff in Hin.
  - intros H [name child] Hin. apply list_elem_of_In, H in Hin.
    by apply andb_true_iff.
Qed.

Lemma NoDup_fst_agree {A B : Type} (l : list (A * B)) (k : A) (v v' : B) :
  NoDup l.*1 → (k, v) ∈ l → (k, v') ∈ l → v = v'.
Proof.
  induction l as [|[k0 v0] l IH]; [by intros _ ?%elem_of_nil|].
  rewrite fmap_cons, NoDup_cons. cbn. intros [Hk Hnd].
  rewrite !elem_of_cons. intros [?|Hin] [?|Hin']; simplify_eq.
  - done.
  - destruct Hk. by apply (list_elem_of_fmap_2 fst) in Hin'.
  - destruct Hk. by apply (list_elem_of_fmap_2 fst) in Hin.
  - by apply IH.
Qed.

Lemma under_valid (n : node) (dirs : list string) (name : string) (regular : bool) :
  wf_node n = true → under n dirs name regular →
  Forall (λ d, valid_name d = true) dirs ∧ valid_name name = true.
Proof.
  intros Hwf Hu. induction Hu as [entries name regular Hin
    |entries d child dirs name regular Hin Hu IH].
  - apply wf_node_Dir in Hwf as [_ Hwf]. by destruct (Hwf _ _ Hin).
  - apply wf_node_Dir in Hwf as [_ Hwf]. destruct (Hwf _ _ Hin) as [Hd Hc].
    destruct (IH Hc). split; [by constructor|done].
Qed.

Lemma under_regular_agree (n : node) (dirs : list string) (name : string)
    (regular regular' : bool) :
  wf_node n = true → under n dirs name regular → under n dirs name regular' →
  regular = regular'.
Proof.
  intros Hwf Hu. revert regular'.
  induction Hu as [entries name regular Hin
    |entries d child dirs name regular Hin Hu IH]; intros regular' Hu';
    inversion Hu'; subst; apply wf_node_Dir in Hwf as [Hnd Hwf].
  - by assert (File regular = File regular') as [= ->]
      by (by eapply NoDup_fst_agree).
  - assert (child = child0) as <- by (by eapply NoDup_fst_agree).
    apply IH; [|done]. by destruct (Hwf _ _ Hin).
Qed.

(** ** What the two traversals find *)

Lemma collect_files_recursive (folder : string) (extensions : list string)
    (fs : node) :
  collect_files folder extensions true fs
  = Ok (sorted (found_recursive folder extensions fs)).
Proof. done. Qed.

Lemma collect_files_flat (folder : string) (extensions : list string)
    (fs : node) :
  collect_files folder extensions false fs
  = let* entries := listdir folder fs in
    Ok (sorted (found_flat folder extensions entries)).
Proof. unfold collect_files. by destruct (listdir folder fs). Qed.

Lemma found_recursive_Dir (top : string) (extensions : list string)
    (entries : list (string * node)) :
  found_recursive top extensions (Dir entries)
  = (join top <$> filter (λ file, matches extensions file = true)
       (filter (λ ne, is_dir ne.2 = false) entries).*1)
    ++ (entries ≫= λ ne, found_recursive (join top ne.1) extensions ne.2).
Proof.
  unfold found_recursive. cbn [walk]. rewrite bind_cons. f_equal.
  induction entries as [|[name child] entries IH]; [done|].
  rewrite !bind_cons, bind_app, IH. f_equal.
  by destruct child.
Qed.

Lemma elem_of_found_recursive (top : string) (extensions : list string)
    (n : node) (p : string) :
  p ∈ found_recursive top extensions n ↔
  ∃ dirs name regular,
    under n dirs name regular ∧ matches extensions name = true ∧
    p = file_path top dirs name.
Proof.
  revert top p. induction n as [regular|e|entries IH] using node_induction;
    intros top p.
  - split; [by intros ?%elem_of_nil|]. intros (?&?&?&Hu&_). inversion Hu.
  - split; [by intros ?%elem_of_nil|]. intros (?&?&?&Hu&_). inversion Hu.
  - rewrite found_recursive_Dir, elem_of_app, list_elem_of_fmap, list_elem_of_bind.
    rewrite Forall_forall in IH. split.
    + intros [(name&->&[Hm Hin]%list_elem_of_filter)|(ne&Hp&Hin)].
      * apply list_elem_of_fmap in Hin as ([name' child]&->&[Hd Hin]%list_elem_of_filter).
        destruct child as [regular| |]; try done.
        exists [], name', regular. split_and!; [by constructor|done..].
      * apply IH in Hp as (dirs&name&regular&Hu&Hm&->); [|done].
        destruct ne as [d child]. exists (d :: dirs), name, regular.
        split_and!; [by econstructor|done..].
    + intros (dirs&name&regular&Hu&Hm&->). inversion Hu; subst.
      * left. exists name. split; [done|]. apply list_elem_of_filter. split; [done|].
        apply list_elem_of_fmap. exists (name, File regular). split; [done|].
        by apply list_elem_of_filter.
      * right. exists (d, child). split; [|done]. apply IH; [done|]. eauto 10.
Qed.

Lemma elem_of_found_flat (folder : string) (extensions : list string)
    (entries : list (string * node)) (p : string) :
  p ∈ found_flat folder extensions entries ↔
  ∃ name, (name, File true) ∈ entries ∧ matches extensions name = true ∧
    p = file_path folder [] name.
Proof.
  unfold found_flat. rewrite list_elem_of_fmap. split.
  - intros ([name child]&->&[Hc Hin]%list_elem_of_filter).
    apply andb_true_iff in Hc as [Hf Hm].
    destruct child as [[]| |]; try done. by exists name.
  - intros (name&Hin&Hm&->). exists (name, File true). split; [done|].
    apply list_elem_of_filter. split; [|done]. by apply andb_true_iff.
Qed.

Lemma found_flat_subseteq (folder : string) (extensions : list string)
    (entries : list (string * node)) (p : string) :
  p ∈ found_flat folder extensions entries →
  p ∈ found_recursive folder extensions (Dir entries).
Proof.
  intros (name&Hin&Hm&->)%elem_of_found_flat. apply elem_of_found_recursive.
  exists [], name, true. split_and!; [by constructor|done..].
Qed.

Lemma NoDup_found_recursive (top : string) (extensions : list string)
    (n : node) :
  wf_node n = true → NoDup (found_recursive top extensions n).
Proof.
  revert top. induction n as [regular|e|entries IH] using node_induction;
    intros top Hwf; [constructor..|].
  rewrite Forall_forall in IH.
  pose proof Hwf as [Hnd Hch]%wf_node_Dir.
  assert (Hloc : ∀ ne p, ne ∈ entries →
    p ∈ found_recursive (join top ne.1) extensions ne.2 →
    ∃ dirs name, Forall (λ d, valid_name d = true) (ne.1 :: dirs) ∧
      valid_name name = true ∧ p = file_path top (ne.1 :: dirs) name).
  { intros [d child] p Hin (dirs&name&regular&Hu&_&->)%elem_of_found_recursive.
    destruct (Hch _ _ Hin) as [Hd Hc].
    destruct (under_valid _ _ _ _ Hc Hu) as [Hds Hn].
    exists dirs, name. split_and!; [by constructor|done..]. }
  rewrite found_recursive_Dir. apply NoDup_app. split_and!.
  - apply NoDup_fmap_2_strong.
    + intros x y [_ Hx]%list_elem_of_filter [_ Hy]%list_elem_of_filter Heq.
      apply list_elem_of_fmap in Hx as ([? cx]&->&[_ Hx]%list_elem_of_filter).
      apply list_elem_of_fmap in Hy as ([? cy]&->&[_ Hy]%list_elem_of_filter).
      destruct (Hch _ _ Hx) as [Vx _], (Hch _ _ Hy) as [Vy _].
      by destruct (file_path_inj top [] [] _ _ (Forall_nil_2 _) Vx
        (Forall_nil_2 _) Vy Heq).
    + apply NoDup_filter. eapply sublist_NoDup; [exact Hnd|].
      apply fmap_sublist, sublist_filter.
  - intros p (name&->&[_ Hin]%list_elem_of_filter)%list_elem_of_fmap
      (ne&Hp&Hne)%list_elem_of_bind.
    apply list_elem_of_fmap in Hin as ([? c]&->&[_ Hin]%list_elem_of_filter).
    destruct (Hch _ _ Hin) as [Vn _].
    destruct (Hloc _ _ Hne Hp) as (dirs&name&Vds&Vname&Heq).
    by destruct (file_path_inj top [] _ _ _ (Forall_nil_2 _) Vn Vds Vname Heq).
  - apply NoDup_bind; [| |by eapply NoDup_fmap_1].
    + intros [d1 c1] [d2 c2] p Hin1 Hin2 Hp1 Hp2.
      destruct (Hloc _ _ Hin1 Hp1) as (dirs1&name1&V1&Vn1&->).
      destruct (Hloc _ _ Hin2 Hp2) as (dirs2&name2&V2&Vn2&Heq).
      destruct (file_path_inj _ _ _ _ _ V1 Vn1 V2 Vn2 Heq) as [[= -> _] _].
      f_equal. by eapply NoDup_fst_agree.
    + intros [d c] Hin. apply IH; [done|]. by destruct (Hch _ _ Hin).
Qed.

Lemma NoDup_found_flat (folder : string) (extensions : list string)
    (entries : list (string * node)) :
  wf_node (Dir entries) = true → NoDup (found_flat folder extensions entries).
Proof.
  intros [Hnd Hch]%wf_node_Dir. unfold found_flat. apply NoDup_fmap_2_strong.
  - intros [x cx] [y cy] [_ Hx]%list_elem_of_filter [_ Hy]%list_elem_of_filter Heq.
    destruct (Hch _ _ Hx) as [Vx _], (Hch _ _ Hy) as [Vy _].
    destruct (file_path_inj folder [] [] _ _ (Forall_nil_2 _) Vx
      (Forall_nil_2 _) Vy Heq) as [_ Hxy]. cbn in Hxy. subst.
    f_equal. by eapply NoDup_fst_agree.
  - apply NoDup_filter. by eapply NoDup_fmap_1.
Qed.

(** ** The order of the directory listing does not matter *)

Lemma reorder_is_dir (n n' : node) : reorder n n' → is_dir n = is_dir n'.
Proof. by destruct 1. Qed.

Lemma reorder_isfile (n n' : node) : reorder n n' → isfile n = isfile n'.
Proof. by destruct 1. Qed.

Lemma found_recursive_reorder (top : string) (extensions : list string)
    (fs fs' : node) :
  reorder fs fs' →
  found_recursive top extensions fs ≡ₚ found_recursive top extensions fs'.
Proof.
  revert top fs'. induction fs as [regular|e|entries IH] using node_induction;
    intros top fs' Hr; inversion Hr as [| |? entries' entries'' HF Hp]; subst;
    [done..|].
  rewrite !found_recursive_Dir, <- Hp. clear Hr Hp entries''.
  induction HF as [|[d c] [d' c'] entries entries' [Hd Hc] HF IHF]; [done|].
  cbn in Hd, Hc. subst d'. apply Forall_cons in IH as [IHc IH].
  specialize (IHF IH). specialize (IHc (join top d) c' Hc). cbn [snd] in IHc.
  rewrite !bind_cons, !filter_cons. cbn [fst snd].
  rewrite <- (reorder_is_dir c c' Hc).
  assert (∀ x y z : list string, x ++ y ++ z ≡ₚ y ++ x ++ z) as Hswap
    by (intros; apply Permutation_app_swap_app).
  destruct (decide (is_dir c = false)); rewrite ?fmap_cons, ?filter_cons;
    cbn [fst]; [destruct (decide (matches extensions d = true))|];
    rewrite ?fmap_cons; cbn [app]; try apply perm_skip;
    rewrite Hswap, (Hswap _ (found_recursive _ _ c')); by f_equiv.
Qed.

Lemma found_flat_reorder (folder : string) (extensions : list string)
    (entries entries' : list (string * node)) :
  reorder (Dir entries) (Dir entries') →
  found_flat folder extensions entries ≡ₚ found_flat folder extensions entries'.
Proof.
  intros Hr. inversion Hr as [| |? mid ? HF Hp]; subst.
  unfold found_flat. rewrite <- Hp. clear Hr Hp.
  induction HF as [|[d c] [d' c'] entries mid [Hd Hc] HF IHF]; [done|].
  cbn in Hd, Hc. subst d'. rewrite !filter_cons. cbn [fst snd].
  rewrite <- (reorder_isfile c c' Hc).
  destruct (decide (isfile c && endswith (lower d) extensions = true));
    rewrite ?fmap_cons; cbn [fst]; [by apply perm_skip|done].
Qed.

Lemma collect_files_reorder (folder : string) (extensions : list string)
    (recursive : bool) (fs fs' : node) :
  reorder fs fs' →
  collect_files folder extensions recursive fs'
  = collect_files folder extensions recursive fs.
Proof.
  intros Hr. destruct recursive.
  - rewrite !collect_files_recursive. f_equal. apply sorted_order_blind.
    symmetry. by apply found_recursive_reorder.
  - rewrite !collect_files_flat. destruct Hr; [done..|]. cbn.
    f_equal. apply sorted_order_blind. symmetry.
    apply found_flat_reorder. by econstructor.
Qed.

(** ** The collector *)

Lemma elem_of_collect_files (folder : string) (extensions : list string)
    (recursive : bool) (fs : node) (dirs : list string) (name : string)
    (regular : bool) :
  wf_node fs = true →
  under fs dirs name regular →
  ∃ l, collect_files folder extensions recursive fs = Ok l ∧
    (file_path folder dirs name ∈ l ↔
       matches extensions name = true ∧
       (recursive = false → regular = true ∧ dirs = [])).
Proof.
  intros Hwf Hu. destruct (under_valid _ _ _ _ Hwf Hu) as [Vd Vn].
  destruct recursive.
  - rewrite collect_files_recursive. eexists. split; [done|].
    rewrite sorted_elem_of, elem_of_found_recursive. split.
    + intros (dirs'&name'&regular'&Hu'&Hm&Heq).
      destruct (under_valid _ _ _ _ Hwf Hu') as [Vd' Vn'].
      destruct (file_path_inj _ _ _ _ _ Vd Vn Vd' Vn' Heq) as [_ ->]. done.
    + intros [Hm _]. eauto 10.
  - rewrite collect_files_flat. destruct Hu as [entries name regular Hin
      |entries d child dirs name regular Hin Hu]; cbn; (eexists; split; [done|]);
      rewrite sorted_elem_of, elem_of_found_flat.
    + split.
      * intros (name'&Hin'&Hm&Heq).
        assert (under (Dir entries) [] name' true) as Hu' by (by constructor).
        destruct (under_valid _ _ _ _ Hwf Hu') as [Vd' Vn'].
        destruct (file_path_inj _ _ _ _ _ Vd Vn Vd' Vn' Heq) as [_ ->].
        split; [done|]. intros _. split; [|done].
        eapply under_regular_agree; [done| |done]. by constructor.
      * intros [Hm Hr]. destruct (Hr eq_refl) as [-> _]. eauto.
    + split.
      * intros (name'&Hin'&Hm&Heq).
        assert (under (Dir entries) [] name' true) as Hu' by (by constructor).
        destruct (under_valid _ _ _ _ Hwf Hu') as [Vd' Vn'].
        by destruct (file_path_inj _ _ _ _ _ Vd Vn Vd' Vn' Heq).
      * intros [_ Hr]. by destruct (Hr eq_refl).
Qed.

Lemma matches_nil (name : string) : matches [] name = false.
Proof. done. Qed.

Lemma found_recursive_nil (top : string) (fs : node) :
  found_recursive top [] fs = [].
Proof.
  apply elem_of_nil_inv. intros p (?&?&?&_&Hm&_)%elem_of_found_recursive.
  by rewrite matches_nil in Hm.
Qed.

Lemma found_flat_nil (folder : string) (entries : list (string * node)) :
  found_flat folder [] entries = [].
Proof.
  apply elem_of_nil_inv. intros p (?&_&Hm&_)%elem_of_found_flat.
  by rewrite matches_nil in Hm.
Qed.

Lemma matches_any_case_lowercase (extensions : list string) (name : string) :
  Forall (λ e, lower e = e) extensions →
  matches_any_case extensions name = endswith (lower name) extensions.
Proof.
  unfold matches_any_case, endswith.
  induction 1 as [|e extensions He _ IH]; [done|].
  cbn [existsb]. by rewrite He, IH.
Qed.

Lemma has_upper_app (a b : string) :
  has_upper (a +:+ b) = has_upper a || has_upper b.
Proof.
  induction a as [|c a IH]; [done|].
  rewrite app_String. cbn [has_upper]. by rewrite IH, orb_assoc.
Qed.

Lemma upper_extension_unmatched (e name : string) :
  has_upper e = true → endswith (lower name) [e] = false.
Proof.
  intros He. unfold endswith. cbn [existsb]. rewrite orb_false_r.
  apply not_true_is_false. intros [pre Heq]%endswith1_spec.
  pose proof (lower_no_upper name) as Hl.
  rewrite Heq, has_upper_app, He, orb_true_r in Hl. done.
Qed.

(** C1, as the code has it.  Filter correctness: for a file under the root
    (in a tree whose names are those of a file system), the path of the
    file is in the sequence [collect_files] returns if and only if its
    lowercased name ends with one of the extensions, taken as they are
    configured, and, when [recursive] is false, the file is moreover a
    regular file and a direct child of the root.  For extensions written
    in lower case this is the comparison without regard to case; an
    extension that holds one of the letters A-Z matches no name. *)
Theorem collect_files_filter (folder : string) (extensions : list string)
    (recursive : bool) (fs : node) (dirs : list string) (name : string)
    (regular : bool) :
  wf_node fs = true →
  under fs dirs name regular →
  (∃ l, collect_files folder extensions recursive fs = Ok l ∧
     (file_path folder dirs name ∈ l ↔
        endswith (lower name) extensions = true ∧
        (recursive = false → regular = true ∧ dirs = []))) ∧
  (Forall (λ e, lower e = e) extensions →
   matches_any_case extensions name = endswith (lower name) extensions) ∧
  (∀ e, has_upper e = true → endswith (lower name) [e] = false).
Proof.
  intros Hwf Hu. split_and!.
  - by apply elem_of_collect_files.
  - apply matches_any_case_lowercase.
  - intros e He. by apply upper_extension_unmatched.
Qed.

(** C2. Ordering.  The sequence [collect_files] returns is strictly
    ascending in the lexicographic order of the path strings, and it is
    the same whatever the order in which the directories list their
    entries. *)
Theorem collect_files_ordered (folder : string) (extensions : list string)
    (recursive : bool) (fs : node) (l : list string) :
  wf_node fs = true →
  collect_files folder extensions recursive fs = Ok l →
  StronglySorted str_lt l ∧
  ∀ fs', reorder fs fs' →
    collect_files folder extensions recursive fs' = Ok l.
Proof.
  intros Hwf Hl. split.
  - destruct recursive.
    + rewrite collect_files_recursive in Hl. injection Hl as <-.
      by apply sorted_strict, NoDup_found_recursive.
    + rewrite collect_files_flat in Hl. destruct fs; try done.
      cbn in Hl. injection Hl as <-. by apply sorted_strict, NoDup_found_flat.
  - intros fs' Hr. by rewrite (collect_files_reorder _ _ _ fs fs').
Qed.

(** C8. Recursive against non-recursive.  A matching file in a proper
    subdirectory of the root is in the result of the recursive mode and is
    not in the result of the non-recursive mode. *)
Theorem collect_files_subdirectory (folder : string) (extensions : list string)
    (fs : node) (d : string) (dirs : list string) (name : string)
    (regular : bool) :
  wf_node fs = true →
  under fs (d :: dirs) name regular →
  endswith (lower name) extensions = true →
  ∃ l_rec l_flat,
    collect_files folder extensions true fs = Ok l_rec ∧
    collect_files folder extensions false fs = Ok l_flat ∧
    file_path folder (d :: dirs) name ∈ l_rec ∧
    file_path folder (d :: dirs) name ∉ l_flat.
Proof.
  intros Hwf Hu Hm.
  destruct (elem_of_collect_files folder extensions true _ _ _ _ Hwf Hu)
    as (l_rec&Hrec&Hin).
  destruct (elem_of_collect_files folder extensions false _ _ _ _ Hwf Hu)
    as (l_flat&Hflat&Hout).
  exists l_rec, l_flat. split_and!; [done..| |].
  - apply Hin. by split.
  - intros [_ Hr]%Hout. by destruct (Hr eq_refl).
Qed.

(** C9. Every path the non-recursive mode returns is also returned by the
    recursive mode on the same root and extensions. *)
Theorem collect_files_flat_subset (folder : string) (extensions : list string)
    (fs : node) (l_flat : list string) :
  collect_files folder extensions false fs = Ok l_flat →
  ∃ l_rec, collect_files folder extensions true fs = Ok l_rec ∧
    ∀ p, p ∈ l_flat → p ∈ l_rec.
Proof.
  rewrite collect_files_flat, collect_files_recursive.
  destruct fs as [|entries|]; try done. cbn. intros [= <-].
  eexists. split; [done|]. intros p. rewrite !sorted_elem_of.
  apply found_flat_subseteq.
Qed.

(** C10. With an empty tuple of extensions, [collect_files] returns the
    empty sequence for every root directory, in both modes. *)
Theorem collect_files_no_extensions (folder : string) (recursive : bool)
    (entries : list (string * node)) :
  collect_files folder [] recursive (Dir entries) = Ok [].
Proof.
  destruct recursive.
  - by rewrite collect_files_recursive, found_recursive_nil.
  - rewrite collect_files_flat. cbn. by rewrite found_flat_nil.
Qed.

(** C7, as the code has it.  In the non-recursive mode the error of listing
    the root is not caught and leaves [collect_files]; when the root can be
    listed nothing else is listed, and the call returns.  In the recursive
    mode [os.walk] swallows every listing error: the call always returns,
    and a directory that cannot be listed adds nothing to the result. *)
Theorem collect_files_errors (folder : string) (extensions : list string)
    (fs : node) :
  (∀ e, listdir folder fs = Raise e →
     collect_files folder extensions false fs = Raise e) ∧
  (∀ entries, listdir folder fs = Ok entries →
     ∃ l, collect_files folder extensions false fs = Ok l) ∧
  (∃ l, collect_files folder extensions true fs = Ok l) ∧
  (∀ e, collect_files folder extensions true (Unlistable e) = Ok []) ∧
  (∀ before d e after,
     collect_files folder extensions true
       (Dir (before ++ (d, Unlistable e) :: after))
     = collect_files folder extensions true (Dir (before ++ after))).
Proof.
  split_and!.
  - intros e He. by rewrite collect_files_flat, He.
  - intros entries He. rewrite collect_files_flat, He. by eexists.
  - rewrite collect_files_recursive. by eexists.
  - done.
  - intros before d e after. rewrite !collect_files_recursive.
    rewrite !found_recursive_Dir, !filter_app, !bind_app, bind_cons.
    by rewrite filter_cons_False by done.
Qed.

(** ** The combiner *)

Lemma str_repeat_60 : str_repeat "=" 60 = separator.
Proof. reflexivity. Qed.

Lemma encodable_cons (c : ascii) (s : string) :
  N_of_ascii c ≠ 237%N → encodable (String c s) = encodable s.
Proof.
  intros Hc. destruct s as [|c' s]; [done|]. cbn [encodable].
  unfold surrogate_lead. by rewrite (proj2 (N.eqb_neq _ _) Hc).
Qed.

Lemma encodable_newline (s : string) : encodable (s +:+ newline) = encodable s.
Proof.
  induction s as [|c s IH]; [done|]. destruct s as [|c' s].
  - change (String c "" +:+ newline) with (String c newline).
    unfold newline. cbn [encodable]. unfold surrogate_lead.
    by destruct (N_of_ascii c =? 237)%N.
  - rewrite !app_String.
    change (encodable (String c (String c' (s +:+ newline))))
      with (negb (surrogate_lead c c')
            && encodable (String c' (s +:+ newline))).
    by rewrite <- app_String, IH.
Qed.

Lemma encodable_adding (path : string) :
  encodable ("Adding: " +:+ path) = encodable path.
Proof.
  change ("Adding: " +:+ path)
    with (String "A" (String "d" (String "d" (String "i" (String "n"
            (String "g" (String ":" (String " " path)))))))).
  by rewrite !encodable_cons by done.
Qed.

Lemma encodable_file_line (path : string) :
  encodable ("FILE: " +:+ path +:+ newline) = encodable path.
Proof.
  change ("FILE: " +:+ path +:+ newline)
    with (String "F" (String "I" (String "L" (String "E" (String ":"
            (String " " (path +:+ newline))))))).
  by rewrite !encodable_cons, encodable_newline by done.
Qed.

Lemma write_encodable (s : string) (r : run) :
  encodable s = true → write s r = Ok (write_decoded s r).
Proof. intros He. unfold write. by rewrite He. Qed.

Lemma print_encodable (s : string) (r : run) :
  encodable s = true → print s r = Ok (print_escaped s r).
Proof. intros He. unfold print. by rewrite He. Qed.

Lemma add_file_encodable (d : gmap string fobj) (r : run) (file_path : string) :
  encodable file_path = true →
  add_file d r file_path
  = match read_text file_path d with
    | Blocks => Blocks
    | _ => Ok (Run (out r +:+ header file_path +:+ body d file_path)
                 (printed r ++ report d file_path))
    end.
Proof.
  intros He. unfold add_file.
  rewrite print_encodable by (by rewrite encodable_adding). cbn [bind].
  rewrite write_encodable by reflexivity. cbn [bind].
  rewrite write_encodable by reflexivity. cbn [bind].
  rewrite write_encodable
    by (etrans; [apply (encodable_file_line file_path)|done]).
  cbn [bind]. rewrite write_encodable by reflexivity. cbn [bind].
  rewrite str_repeat_60.
  unfold body, report, write_decoded, print_escaped, header, line, newline.
  destruct (read_text file_path d) as [text|e|]; [| |done];
    cbn [out printed]; rewrite <- ?(assoc_L (++)); do 2 f_equal;
    rewrite !app_assoc_str; reflexivity.
Qed.

Lemma add_file_unencodable (d : gmap string fobj) (r : run) (file_path : string) :
  encodable file_path = false →
  add_file d r file_path = Raise UnicodeEncodeError.
Proof.
  intros He. unfold add_file, print. by rewrite encodable_adding, He.
Qed.

Lemma passes_spec (d : gmap string fobj) (path : string) :
  passes d path = true ↔ encodable path = true ∧ read_text path d ≠ Blocks.
Proof.
  unfold passes. rewrite andb_true_iff.
  destruct (read_text path d); intuition congruence.
Qed.

Lemma add_file_passes (d : gmap string fobj) (r : run) (file_path : string) :
  passes d file_path = true →
  add_file d r file_path
  = Ok (Run (out r +:+ header file_path +:+ body d file_path)
          (printed r ++ report d file_path)).
Proof.
  intros [He Hb]%passes_spec. rewrite add_file_encodable by done.
  by destruct (read_text file_path d).
Qed.

Lemma add_file_Ok_inv (d : gmap string fobj) (r r' : run) (file_path : string) :
  add_file d r file_path = Ok r' → passes d file_path = true.
Proof.
  destruct (encodable file_path) eqn:He.
  - rewrite add_file_encodable by done. intros H. apply passes_spec.
    split; [done|]. intros Hb. by rewrite Hb in H.
  - by rewrite add_file_unencodable.
Qed.

Lemma for_each_passes (d : gmap string fobj) (file_list : list string) (r : run) :
  Forall (λ p, passes d p = true) file_list →
  for_each (add_file d) r file_list
  = Ok (Run (out r +:+ str_concat ((λ p, header p +:+ body d p) <$> file_list))
          (printed r ++ (file_list ≫= report d))).
Proof.
  intros Hl. revert r. induction Hl as [|p file_list Hp _ IH]; intros r.
  - cbn. rewrite app_empty_r, (right_id_L [] (++)). by destruct r.
  - cbn [for_each]. rewrite add_file_passes by done. cbn [bind].
    rewrite IH. cbn [out printed]. rewrite fmap_cons, bind_cons.
    cbn [str_concat foldr]. by rewrite !app_assoc_str, <- (assoc_L (++)).
Qed.

Lemma for_each_Ok_inv (d : gmap string fobj) (file_list : list string)
    (r r' : run) :
  for_each (add_file d) r file_list = Ok r' →
  Forall (λ p, passes d p = true) file_list.
Proof.
  revert r. induction file_list as [|p file_list IH]; intros r; [done|].
  cbn [for_each]. destruct (add_file d r p) as [r1| |] eqn:Hp; [|done..].
  cbn [bind]. intros Hrest. constructor; [by eapply add_file_Ok_inv|by eapply IH].
Qed.

Lemma for_each_Raise (d : gmap string fobj) (file_list : list string)
    (r : run) (e : exn) :
  for_each (add_file d) r file_list = Raise e ↔
  e = UnicodeEncodeError ∧
  ∃ before p after,
    file_list = before ++ p :: after ∧
    Forall (λ q, passes d q = true) before ∧
    encodable p = false.
Proof.
  revert r. induction file_list as [|p file_list IH]; intros r.
  - split; [done|]. intros (_&before&q&after&Heq&_). by destruct before.
  - cbn [for_each]. destruct (encodable p) eqn:He.
    + rewrite add_file_encodable by done.
      destruct (read_text p d) as [text|e'|] eqn:Hr; cbn [bind].
      1,2: rewrite IH; split;
        [ intros (->&before&q&after&->&Hb&Hq); split; [done|];
          exists (p :: before), q, after; split_and!; [done| |done];
          constructor; [|done]; apply passes_spec; by rewrite Hr
        | intros (->&before&q&after&Heq&Hb&Hq); split; [done|];
          destruct before as [|p' before]; simplify_eq/=;
          [by rewrite He in Hq|];
          apply Forall_cons in Hb as [_ Hb]; eauto 10 ].
      split; [done|]. intros (_&before&q&after&Heq&Hb&Hq).
      destruct before as [|p' before]; simplify_eq/=; [by rewrite He in Hq|].
      apply Forall_cons in Hb as [[_ Hp]%passes_spec _]. done.
    + rewrite add_file_unencodable by done. cbn [bind]. split.
      * intros [= <-]. split; [done|]. by exists [], p, file_list.
      * by intros [-> _].
Qed.

Lemma combine_files_spec (file_list : list string) (output_file : string)
    (w : world) (d : gmap string fobj) :
  open_w output_file (disk w) = Ok d →
  Forall (λ p, passes d p = true) file_list →
  combine_files file_list output_file w
  = Ok (World
          (<[output_file :=
               Text (str_concat ((λ p, header p +:+ body d p) <$> file_list))]> d)
          (stdout w ++ (file_list ≫= report d))).
Proof.
  intros Hd Hl. unfold combine_files. rewrite Hd. cbn [bind].
  by rewrite for_each_passes.
Qed.

Lemma open_w_inv (path : string) (d d' : gmap string fobj) :
  open_w path d = Ok d' → d' = <[path := Text ""]> d.
Proof.
  unfold open_w. destruct (d !! path) as [[| |]|]; intros [= <-] || done; done.
Qed.

Lemma open_w_writable_true (path : string) (d : gmap string fobj) :
  writable d path = true → open_w path d = Ok (<[path := Text ""]> d).
Proof. unfold writable, open_w. by destruct (d !! path) as [[| |]|]. Qed.

Lemma open_w_Ok_writable (path : string) (d d' : gmap string fobj) :
  open_w path d = Ok d' → writable d path = true.
Proof. unfold writable, open_w. by destruct (d !! path) as [[| |]|]. Qed.

Lemma read_text_insert_ne (path output_file : string) (x : fobj)
    (d : gmap string fobj) :
  path ≠ output_file →
  read_text path (<[output_file := x]> d) = read_text path d.
Proof. intros Hne. unfold read_text. by rewrite lookup_insert_ne. Qed.

Lemma written_insert_ne (file_list : list string) (output_file : string)
    (x : fobj) (d : gmap string fobj) :
  output_file ∉ file_list →
  (λ p, header p +:+ body (<[output_file := x]> d) p) <$> file_list
  = (λ p, header p +:+ body d p) <$> file_list.
Proof.
  induction file_list as [|p file_list IH]; [done|].
  intros [Hne Hnotin]%not_elem_of_cons. rewrite !fmap_cons, IH by done.
  unfold body. by rewrite read_text_insert_ne.
Qed.

Lemma printed_insert_ne (file_list : list string) (output_file : string)
    (x : fobj) (d : gmap string fobj) :
  output_file ∉ file_list →
  file_list ≫= report (<[output_file := x]> d) = file_list ≫= report d.
Proof.
  induction file_list as [|p file_list IH]; [done|].
  intros [Hne Hnotin]%not_elem_of_cons. rewrite !bind_cons, IH by done.
  unfold report. by rewrite read_text_insert_ne.
Qed.

Lemma passes_insert_ne (file_list : list string) (output_file : string)
    (x : fobj) (d : gmap string fobj) :
  output_file ∉ file_list →
  Forall (λ p, passes (<[output_file := x]> d) p = true) file_list ↔
  Forall (λ p, passes d p = true) file_list.
Proof.
  induction file_list as [|p file_list IH]; [done|].
  intros [Hne Hnotin]%not_elem_of_cons. rewrite !Forall_cons, IH by done.
  unfold passes. by rewrite read_text_insert_ne.
Qed.

Lemma Forall_passes (d : gmap string fobj) (file_list : list string) :
  Forall (λ p, encodable p = true) file_list →
  Forall (λ p, read_text p d ≠ Blocks) file_list →
  Forall (λ p, passes d p = true) file_list.
Proof.
  rewrite !Forall_forall. intros He Hb p Hp. apply passes_spec. auto.
Qed.

Lemma combine_files_inv (file_list : list string) (output_file : string)
    (w w' : world) :
  combine_files file_list output_file w = Ok w' →
  let d := <[output_file := Text ""]> (disk w) in
  writable (disk w) output_file = true ∧
  Forall (λ p, passes d p = true) file_list ∧
  w' = World
         (<[output_file :=
              Text (str_concat ((λ p, header p +:+ body d p) <$> file_list))]>
            (disk w))
         (stdout w ++ (file_list ≫= report d)).
Proof.
  unfold combine_files.
  destruct (open_w output_file (disk w)) as [d| |] eqn:Hd; [|done..].
  pose proof (open_w_Ok_writable _ _ _ Hd) as Hw.
  apply open_w_inv in Hd as ->. cbn [bind].
  destruct (for_each _ _ _) as [r| |] eqn:Hr; [|done..].
  cbn [bind]. intros [= <-].
  pose proof (for_each_Ok_inv _ _ _ _ Hr) as Hl.
  rewrite for_each_passes in Hr by done. injection Hr as <-.
  cbn [out printed]. split_and!; [done..|].
  by rewrite app_empty_l, insert_insert_eq.
Qed.

Lemma combine_files_again (file_list : list string) (output_file : string)
    (w w1 w' : world) :
  combine_files file_list output_file w = Ok w1 →
  disk w' = disk w1 →
  ∃ w2, combine_files file_list output_file w' = Ok w2 ∧ disk w2 = disk w1.
Proof.
  intros (Hw&Hl&->)%combine_files_inv. cbn [disk]. intros Hw'.
  assert (open_w output_file (disk w')
          = Ok (<[output_file := Text ""]> (disk w))) as Hd'.
  { rewrite open_w_writable_true.
    - by rewrite Hw', !insert_insert_eq.
    - unfold writable. by rewrite Hw', lookup_insert_eq. }
  rewrite (combine_files_spec _ _ _ _ Hd' Hl).
  eexists. split; [done|]. cbn [disk]. by rewrite insert_insert_eq.
Qed.

(** ** Main *)

Lemma reorder_refl (n : node) : reorder n n.
Proof.
  induction n as [regular|e|entries IH] using node_induction;
    [constructor..|].
  apply (reorder_Dir entries entries entries); [|done].
  induction IH as [|ne entries Hne _ IHF]; by constructor.
Qed.

Lemma reorder_entries_refl (entries : list (string * node)) :
  Forall2 (λ ne ne', ne.1 = ne'.1 ∧ reorder ne.2 ne'.2) entries entries.
Proof.
  induction entries as [|ne entries IH]; constructor; [|done].
  split; [done|apply reorder_refl].
Qed.

Lemma found_recursive_skip (top : string) (extensions : list string)
    (name : string) (regular : bool) (entries : list (string * node)) :
  matches extensions name = false →
  found_recursive top extensions (Dir ((name, File regular) :: entries))
  = found_recursive top extensions (Dir entries).
Proof.
  intros Hm. rewrite !found_recursive_Dir, bind_cons.
  rewrite filter_cons_True by done. rewrite fmap_cons. cbn [fst].
  rewrite filter_cons_False by (by rewrite Hm). done.
Qed.

Lemma matches_output : matches [".tsx"; ".css"; ".ts"] OUTPUT_FILE = false.
Proof. unfold matches. by rewrite lower_of_ascii. Qed.

Lemma collect_files_next_snapshot (fs fs' : node) :
  next_snapshot fs fs' →
  collect_files INPUT_FOLDER [".tsx"; ".css"; ".ts"] INCLUDE_SUBFOLDERS fs'
  = collect_files INPUT_FOLDER [".tsx"; ".css"; ".ts"] INCLUDE_SUBFOLDERS fs.
Proof.
  destruct 1 as [fs|entries entries' Hp]; [done|].
  unfold INCLUDE_SUBFOLDERS. rewrite !collect_files_recursive. f_equal.
  apply sorted_order_blind.
  rewrite <- (found_recursive_skip _ _ OUTPUT_FILE true entries matches_output).
  symmetry. apply found_recursive_reorder.
  eapply reorder_Dir; [apply reorder_entries_refl|by symmetry].
Qed.

Lemma rooted_join (a b : string) : rooted a = true → rooted (join a b) = true.
Proof.
  unfold join. destruct (startswith b "/") eqn:Hb.
  { intros _. unfold rooted. rewrite Hb. apply orb_true_r. }
  destruct a as [|c a]; [done|]. intros Ha.
  destruct (String.eqb (String c a) "" || endswith1 (String c a) "/");
    rewrite app_String; exact Ha.
Qed.

Lemma rooted_file_path (folder : string) (dirs : list string) (name : string) :
  rooted folder = true → rooted (file_path folder dirs name) = true.
Proof.
  intros Hf. unfold file_path. apply rooted_join. revert folder Hf.
  induction dirs as [|d dirs IH]; intros folder Hf; [done|].
  cbn [foldl]. by apply IH, rooted_join.
Qed.

Lemma output_not_found (extensions : list string) (fs : node) :
  OUTPUT_FILE ∉ found_recursive INPUT_FOLDER extensions fs.
Proof.
  intros (dirs&name&regular&_&_&Heq)%elem_of_found_recursive.
  assert (rooted OUTPUT_FILE = true) as H; [|done].
  rewrite Heq. by apply rooted_file_path.
Qed.

Lemma say_say (a b : string) (w : world) :
  say b (say a w) = World (disk w) (stdout w ++ [a; b]).
Proof. unfold say. cbn. by rewrite <- (assoc_L (++) (stdout w)). Qed.

Lemma main_spec (fs : node) (w : world) :
  main fs w
  = let* files :=
      collect_files INPUT_FOLDER [".tsx"; ".css"; ".ts"] INCLUDE_SUBFOLDERS fs in
    match files with
    | [] =>
        Ok (World (disk w)
              (stdout w ++ ["Scanning for JS and CSS files...";
                            "Found 0 files"; "No files found."]))
    | _ :: _ =>
        let* w' :=
          combine_files files OUTPUT_FILE
            (World (disk w)
               (stdout w ++ ["Scanning for JS and CSS files...";
                   "Found " +:+ pretty (length files) +:+ " files"])) in
        Ok (say ("
Done. Combined file saved as: " +:+ OUTPUT_FILE) w')
    end.
Proof.
  unfold main.
  destruct (collect_files _ _ _ _) as [[|file files]|e|]; cbn [bind];
    [| |done..].
  - rewrite say_say. unfold say. cbn [disk stdout].
    by rewrite <- (assoc_L (++) (stdout w)).
  - by rewrite say_say.
Qed.

Lemma for_each_blocks (d : gmap string fobj) (before after : list string)
    (p : string) (r : run) :
  Forall (λ q, passes d q = true) before →
  encodable p = true →
  read_text p d = Blocks →
  for_each (add_file d) r (before ++ p :: after) = Blocks.
Proof.
  intros Hb Hp Hr. revert r. induction Hb as [|q before Hq _ IH]; intros r.
  - cbn [app for_each]. rewrite add_file_encodable by done. by rewrite Hr.
  - cbn [app for_each]. rewrite add_file_passes by done. cbn [bind]. apply IH.
Qed.

Lemma combine_files_stops (before after : list string) (p output_file : string)
    (w : world) :
  output_file ∉ before ++ p :: after →
  writable (disk w) output_file = true →
  Forall (λ q, encodable q = true ∧ read_text q (disk w) ≠ Blocks) before →
  (encodable p = false →
   combine_files (before ++ p :: after) output_file w
   = Raise UnicodeEncodeError) ∧
  (encodable p = true → read_text p (disk w) = Blocks →
   combine_files (before ++ p :: after) output_file w = Blocks).
Proof.
  intros Hout Hw Hb. unfold combine_files.
  rewrite (open_w_writable_true _ _ Hw). cbn [bind].
  assert (Forall (λ q, passes (<[output_file := Text ""]> (disk w)) q = true)
            before) as Hpass.
  { apply passes_insert_ne.
    - intros Hin. apply Hout, elem_of_app. by left.
    - eapply Forall_impl; [exact Hb|]. intros q Hq. by apply passes_spec. }
  split.
  - intros Hp.
    assert (for_each (add_file (<[output_file := Text ""]> (disk w)))
              (Run "" (stdout w)) (before ++ p :: after)
            = Raise UnicodeEncodeError) as ->; [|done].
    apply for_each_Raise. split; [done|]. by exists before, p, after.
  - intros Hp Hr. rewrite for_each_blocks; [done..|].
    rewrite read_text_insert_ne; [done|].
    intros ->. apply Hout, elem_of_app. right. apply list_elem_of_here.
Qed.

(** C3, as the code has it.  The blocks: for a list of readable source
    files and a destination that can be opened and is none of them, when
    UTF-8 can encode every path of the list [combine_files] leaves in the
    destination, for each path in list order, exactly the block of that
    path: a blank line, a line of 60 [=], the line [FILE: <path>], another
    line of 60 [=], a blank line, the decoded content and two newline
    characters; and it changes no other file.  At the first path that
    UTF-8 cannot encode, [combine_files] raises [UnicodeEncodeError]. *)
Theorem combine_files_blocks (sources : list (string * string))
    (output_file : string) (w : world) :
  Forall (λ pc, read_text pc.1 (disk w) = Ok pc.2) sources →
  output_file ∉ sources.*1 →
  writable (disk w) output_file = true →
  (Forall (λ pc, encodable pc.1 = true) sources →
   ∃ w', combine_files sources.*1 output_file w = Ok w' ∧
     disk w' !! output_file
     = Some (Text (str_concat ((λ pc, block pc.1 pc.2) <$> sources))) ∧
     ∀ path, path ≠ output_file → disk w' !! path = disk w !! path) ∧
  (∀ before pc after, sources = before ++ pc :: after →
     Forall (λ qc, encodable qc.1 = true) before →
     encodable pc.1 = false →
     combine_files sources.*1 output_file w = Raise UnicodeEncodeError).
Proof.
  intros Hread Hout Hw. split.
  - intros Henc.
    assert (Forall (λ p, passes (<[output_file := Text ""]> (disk w)) p = true)
              sources.*1) as Hpass.
    { apply passes_insert_ne; [done|]. apply Forall_fmap, Forall_forall.
      rewrite Forall_forall in Hread, Henc. intros pc Hpc. apply passes_spec.
      cbn. split; [by apply Henc|]. by rewrite (Hread pc Hpc). }
    rewrite (combine_files_spec _ _ _ _ (open_w_writable_true _ _ Hw) Hpass).
    eexists. split; [done|]. cbn [disk]. split.
    + rewrite lookup_insert_eq, written_insert_ne by done. do 3 f_equal.
      clear Hout Henc Hpass.
      induction Hread as [|[p c] sources Hp _ IH]; [done|].
      rewrite !fmap_cons, IH. f_equal. cbn [fst snd] in *. unfold body, block.
      by rewrite Hp.
    + intros path Hne. by rewrite !lookup_insert_ne.
  - intros before pc after -> Henc Hpc.
    rewrite fmap_app, fmap_cons in Hout |- *.
    apply combine_files_stops; [done..| |done].
    apply Forall_app in Hread as [Hread _].
    apply Forall_fmap, Forall_forall.
    rewrite Forall_forall in Hread, Henc. intros qc Hqc. cbn.
    split; [by apply Henc|]. by rewrite (Hread qc Hqc).
Qed.

(** C4, as the code has it.  Isolation of failures: for a destination that
    can be opened and is none of the listed files, when UTF-8 can encode
    every path of the list and no [open] blocks, whatever files of the
    list cannot be opened or read, [combine_files] returns: the
    destination holds the header of every path in list order, followed by
    the content and two newlines for a readable file and by nothing for a
    failed one; one line [Adding: <path>] is printed for every path and,
    for a failed one, a diagnostic that names the path and the error.
    The [try] does not cover the [print] and the header: at the first path
    that UTF-8 cannot encode [combine_files] raises [UnicodeEncodeError],
    and at the first path whose [open] blocks it does not return. *)
Theorem combine_files_isolates (file_list : list string)
    (output_file : string) (w : world) :
  output_file ∉ file_list →
  writable (disk w) output_file = true →
  (Forall (λ p, encodable p = true) file_list →
   Forall (λ p, read_text p (disk w) ≠ Blocks) file_list →
   ∃ w', combine_files file_list output_file w = Ok w' ∧
     disk w' !! output_file
     = Some (Text (str_concat
                     ((λ p, header p +:+ body (disk w) p) <$> file_list))) ∧
     stdout w' = stdout w ++ (file_list ≫= report (disk w)) ∧
     ∀ path e, path ∈ file_list → read_text path (disk w) = Raise e →
       body (disk w) path = "" ∧
       ("Failed to read " +:+ path +:+ ": " +:+ str_exn e) ∈ stdout w') ∧
  (∀ before p after, file_list = before ++ p :: after →
     Forall (λ q, encodable q = true ∧ read_text q (disk w) ≠ Blocks) before →
     (encodable p = false →
      combine_files file_list output_file w = Raise UnicodeEncodeError) ∧
     (encodable p = true → read_text p (disk w) = Blocks →
      combine_files file_list output_file w = Blocks)).
Proof.
  intros Hout Hw. split.
  - intros Henc Hblock.
    assert (Forall (λ p, passes (<[output_file := Text ""]> (disk w)) p = true)
              file_list) as Hpass
      by (by apply passes_insert_ne, Forall_passes).
    rewrite (combine_files_spec _ _ _ _ (open_w_writable_true _ _ Hw) Hpass).
    eexists. split; [done|]. cbn [disk stdout].
    rewrite lookup_insert_eq, written_insert_ne, printed_insert_ne by done.
    split_and!; [done..|]. intros path e Hin He. split.
    + unfold body. by rewrite He.
    + apply elem_of_app. right. apply list_elem_of_bind. exists path.
      split; [|done]. unfold report. rewrite He. elem_here.
  - intros before p after -> Hb. by apply combine_files_stops.
Qed.

(** C5. Determinism.  After a run of [main], a second run on the same
    folder (as it was, or with the output file of the first run now in its
    listing) and on the files the first run left rewrites the output file
    with the same content; the output file is never one of the collected
    files; and running [combine_files] a second time on the same list and
    destination, the destination not being one of the sources, leaves the
    files as the first run left them. *)
Theorem runs_deterministic :
  (∀ fs fs' w w1 w', main fs w = Ok w1 → next_snapshot fs fs' →
     disk w' = disk w1 →
     ∃ w2, main fs' w' = Ok w2 ∧ disk w2 = disk w1) ∧
  (∀ fs l,
     collect_files INPUT_FOLDER [".tsx"; ".css"; ".ts"] INCLUDE_SUBFOLDERS fs
     = Ok l → OUTPUT_FILE ∉ l) ∧
  (∀ file_list output_file w w1 w', output_file ∉ file_list →
     combine_files file_list output_file w = Ok w1 → disk w' = disk w1 →
     ∃ w2, combine_files file_list output_file w' = Ok w2 ∧
       disk w2 = disk w1).
Proof.
  split_and!.
  - intros fs fs' w w1 w' Hrun Hsnap Hdisk. rewrite main_spec in Hrun |- *.
    rewrite (collect_files_next_snapshot _ _ Hsnap).
    destruct (collect_files _ _ _ fs) as [[|file files]|e|];
      cbn [bind] in *; [| |done..].
    + injection Hrun as <-. by eexists.
    + destruct (combine_files (file :: files) OUTPUT_FILE
        (World _ _)) as [v1|e|] eqn:Hv1; [|done..].
      cbn [bind] in Hrun. injection Hrun as <-. cbn [say disk] in *.
      edestruct (combine_files_again _ _ _ v1
        (World (disk w')
           (stdout w' ++ ["Scanning for JS and CSS files...";
              "Found " +:+ pretty (length (file :: files)) +:+ " files"])) Hv1)
        as (v2&Hv2&Hd2); [done|].
      rewrite Hv2. cbn [bind]. by eexists.
  - intros fs l. unfold INCLUDE_SUBFOLDERS. rewrite collect_files_recursive.
    intros [= <-]. rewrite sorted_elem_of. apply output_not_found.
  - intros file_list output_file w w1 w' _. apply combine_files_again.
Qed.

(** C6. Nothing found.  When the collector finds no matching file, [main]
    prints the notice [No files found.] and returns without the write
    step: every file, the destination among them, is as it was, neither
    created nor overwritten. *)
Theorem main_no_files (fs : node) (w : world) :
  collect_files INPUT_FOLDER [".tsx"; ".css"; ".ts"] INCLUDE_SUBFOLDERS fs
  = Ok [] →
  main fs w
  = Ok (World (disk w)
          (stdout w ++ ["Scanning for JS and CSS files...";
                        "Found 0 files"; "No files found."])).
Proof. intros H. by rewrite main_spec, H. Qed.

(** * Further properties of the collector *)

Lemma endswith1_empty (s : string) : endswith1 s "" = true.
Proof. apply endswith1_spec. exists s. by rewrite app_empty_r. Qed.

Lemma endswith_app (s : string) (e1 e2 : list string) :
  endswith s (e1 ++ e2) = endswith s e1 || endswith s e2.
Proof. apply existsb_app. Qed.

Lemma endswith_elem_of (s e : string) (extensions : list string) :
  e ∈ extensions → endswith1 s e = true → endswith s extensions = true.
Proof.
  intros Hin He. apply existsb_exists. exists e. split; [|done].
  by apply list_elem_of_In.
Qed.

Lemma startswith_app (a b : string) : startswith (a +:+ b) a = true.
Proof.
  induction a as [|c a IH]; [by destruct b|].
  rewrite app_String. cbn [startswith]. by rewrite Ascii.eqb_refl, IH.
Qed.

(** X1. Every path [collect_files] returns is the path of a file under the
    root whose lowercased name ends with one of the extensions; in the
    non-recursive mode that file is a regular file directly in the root. *)
Theorem collect_files_sound (folder : string) (extensions : list string)
    (recursive : bool) (fs : node) (l : list string) (p : string) :
  collect_files folder extensions recursive fs = Ok l →
  p ∈ l →
  ∃ dirs name regular,
    under fs dirs name regular ∧
    endswith (lower name) extensions = true ∧
    p = file_path folder dirs name ∧
    (recursive = false → dirs = [] ∧ regular = true).
Proof.
  intros Hl Hp. destruct recursive.
  - rewrite collect_files_recursive in Hl. injection Hl as <-.
    apply sorted_elem_of, elem_of_found_recursive in Hp
      as (dirs&name&regular&Hu&Hm&->).
    exists dirs, name, regular. by split_and!.
  - rewrite collect_files_flat in Hl. destruct fs as [|entries|]; try done.
    cbn in Hl. injection Hl as <-.
    apply sorted_elem_of, elem_of_found_flat in Hp as (name&Hin&Hm&->).
    exists [], name, true. split_and!; [by constructor|done..].
Qed.

(** X2. The recursive branch does not ask [os.path.isfile]: a matching
    entry of the root that is neither a directory nor a regular file (a
    FIFO, a socket, a dangling link) is returned by the recursive mode and
    is not returned by the non-recursive mode. *)
Theorem collect_files_special_file (folder : string) (extensions : list string)
    (entries : list (string * node)) (name : string) :
  wf_node (Dir entries) = true →
  (name, File false) ∈ entries →
  endswith (lower name) extensions = true →
  ∃ l_rec l_flat,
    collect_files folder extensions true (Dir entries) = Ok l_rec ∧
    collect_files folder extensions false (Dir entries) = Ok l_flat ∧
    join folder name ∈ l_rec ∧
    join folder name ∉ l_flat.
Proof.
  intros Hwf Hin Hm.
  assert (under (Dir entries) [] name false) as Hu by (by constructor).
  destruct (elem_of_collect_files folder extensions true _ _ _ _ Hwf Hu)
    as (l_rec&Hrec&Hyes).
  destruct (elem_of_collect_files folder extensions false _ _ _ _ Hwf Hu)
    as (l_flat&Hflat&Hno).
  exists l_rec, l_flat. split_and!; [done..| |].
  - apply Hyes. by split.
  - intros [_ Hr]%Hno. by destruct (Hr eq_refl).
Qed.

(** X3. In a tree whose names are those of a file system, every path
    [collect_files] returns begins with the folder it was given. *)
Theorem collect_files_below_folder (folder : string) (extensions : list string)
    (recursive : bool) (fs : node) (l : list string) (p : string) :
  wf_node fs = true →
  collect_files folder extensions recursive fs = Ok l →
  p ∈ l →
  startswith p folder = true.
Proof.
  intros Hwf Hl Hp.
  assert (∃ dirs name regular,
            under fs dirs name regular ∧ p = file_path folder dirs name)
    as (dirs&name&regular&Hu&->).
  { destruct recursive.
    - rewrite collect_files_recursive in Hl. injection Hl as <-.
      apply sorted_elem_of, elem_of_found_recursive in Hp
        as (dirs&name&regular&Hu&_&->). eauto.
    - rewrite collect_files_flat in Hl. destruct fs as [|entries|]; try done.
      cbn in Hl. injection Hl as <-.
      apply sorted_elem_of, elem_of_found_flat in Hp as (name&Hin&_&->).
      exists [], name, true. split; [by constructor|done]. }
  destruct (under_valid _ _ _ _ Hwf Hu) as [Vd Vn].
  rewrite file_path_rel_path by done. apply startswith_app.
Qed.

(** X4. Extensions add up: a path is returned for the extensions [e1 ++ e2]
    exactly when it is returned for [e1] or for [e2]. *)
Theorem collect_files_extensions_union (folder : string) (e1 e2 : list string)
    (recursive : bool) (fs : node) (l : list string) :
  collect_files folder (e1 ++ e2) recursive fs = Ok l →
  ∃ l1 l2,
    collect_files folder e1 recursive fs = Ok l1 ∧
    collect_files folder e2 recursive fs = Ok l2 ∧
    ∀ p, p ∈ l ↔ p ∈ l1 ∨ p ∈ l2.
Proof.
  destruct recursive.
  - rewrite !collect_files_recursive. intros [= <-].
    eexists _, _. split_and!; [done..|]. intros p.
    rewrite !sorted_elem_of, !elem_of_found_recursive. unfold matches. split.
    + intros (dirs&name&regular&Hu&Hm&->).
      rewrite endswith_app in Hm. apply orb_true_iff in Hm as [Hm|Hm];
        [left|right]; eauto 10.
    + intros [(dirs&name&regular&Hu&Hm&->)|(dirs&name&regular&Hu&Hm&->)];
        exists dirs, name, regular; rewrite endswith_app, Hm;
        split_and!; auto using orb_true_r.
  - rewrite !collect_files_flat. destruct fs as [|entries|]; try done.
    cbn. intros [= <-]. eexists _, _. split_and!; [done..|]. intros p.
    rewrite !sorted_elem_of, !elem_of_found_flat. unfold matches. split.
    + intros (name&Hin&Hm&->).
      rewrite endswith_app in Hm. apply orb_true_iff in Hm as [Hm|Hm];
        [left|right]; eauto 10.
    + intros [(name&Hin&Hm&->)|(name&Hin&Hm&->)];
        exists name; rewrite endswith_app, Hm;
        split_and!; auto using orb_true_r.
Qed.

(** X5. The empty string is a suffix of every name: when it is one of the
    extensions, the recursive mode returns the path of every file under
    the root. *)
Theorem collect_files_empty_extension (folder : string)
    (extensions : list string) (fs : node) (dirs : list string)
    (name : string) (regular : bool) :
  "" ∈ extensions →
  under fs dirs name regular →
  ∃ l, collect_files folder extensions true fs = Ok l ∧
    file_path folder dirs name ∈ l.
Proof.
  intros He Hu. rewrite collect_files_recursive. eexists. split; [done|].
  apply sorted_elem_of, elem_of_found_recursive.
  exists dirs, name, regular. split_and!; [done| |done].
  eapply endswith_elem_of; [done|apply endswith1_empty].
Qed.

(** X6. A file whose name does not match has no influence: with or without
    such an entry in the root, [collect_files] returns the same, in both
    modes. *)
Theorem collect_files_ignores_others (folder : string)
    (extensions : list string) (recursive : bool)
    (before after : list (string * node)) (name : string) (regular : bool) :
  endswith (lower name) extensions = false →
  collect_files folder extensions recursive
    (Dir (before ++ (name, File regular) :: after))
  = collect_files folder extensions recursive (Dir (before ++ after)).
Proof.
  intros Hm. destruct recursive.
  - rewrite !collect_files_recursive, !found_recursive_Dir.
    rewrite !filter_app, !bind_app, bind_cons, !fmap_app, !filter_app.
    rewrite filter_cons_True by done. rewrite fmap_cons. cbn [fst].
    rewrite filter_cons_False by (unfold matches; by rewrite Hm). done.
  - rewrite !collect_files_flat. cbn. unfold found_flat.
    rewrite !filter_app, filter_cons_False; [done|].
    cbn [fst snd]. rewrite Hm, andb_false_r. done.
Qed.

(** * Further properties of the combiner *)

Lemma str_concat_app (l1 l2 : list string) :
  str_concat (l1 ++ l2) = str_concat l1 +:+ str_concat l2.
Proof.
  induction l1 as [|s l1 IH]; [done|].
  change (str_concat ((s :: l1) ++ l2)) with (s +:+ str_concat (l1 ++ l2)).
  change (str_concat (s :: l1)) with (s +:+ str_concat l1).
  by rewrite IH, app_assoc_str.
Qed.

Lemma combine_files_untouched (file_list : list string) (output_file : string)
    (w w' : world) :
  combine_files file_list output_file w = Ok w' →
  (∀ path, path ≠ output_file → disk w' !! path = disk w !! path) ∧
  stdout w `prefix_of` stdout w'.
Proof.
  intros (_&_&->)%combine_files_inv. cbn [disk stdout]. split.
  - intros path Hne. by rewrite lookup_insert_ne.
  - by eexists.
Qed.

Lemma combine_files_same_open (file_list : list string) (output_file : string)
    (w1 w2 : world) :
  <[output_file := Text ""]> (disk w1) = <[output_file := Text ""]> (disk w2) →
  writable (disk w1) output_file = true →
  writable (disk w2) output_file = true →
  disk <$> (match combine_files file_list output_file w1 with
            | Ok w' => Some w' | _ => None end)
  = disk <$> (match combine_files file_list output_file w2 with
              | Ok w' => Some w' | _ => None end) ∧
  (∀ e, combine_files file_list output_file w1 = Raise e ↔
        combine_files file_list output_file w2 = Raise e) ∧
  (combine_files file_list output_file w1 = Blocks ↔
   combine_files file_list output_file w2 = Blocks).
Proof.
  intros Heq H1 H2. unfold combine_files.
  rewrite !open_w_writable_true by done. rewrite <- Heq. cbn [bind].
  set (d := <[output_file := Text ""]> (disk w1)).
  assert (∀ r1 r2, out r1 = out r2 →
    match for_each (add_file d) r1 file_list,
          for_each (add_file d) r2 file_list with
    | Ok a, Ok b => out a = out b
    | Raise e1, Raise e2 => e1 = e2
    | Blocks, Blocks => True
    | _, _ => False
    end) as Hsame.
  { induction file_list as [|p file_list IH]; intros r1 r2 Hr; [done|].
    cbn [for_each]. destruct (encodable p) eqn:He.
    - rewrite !add_file_encodable by done.
      destruct (read_text p d); cbn [bind]; [| |done];
        apply IH; cbn [out]; by rewrite Hr.
    - by rewrite !add_file_unencodable. }
  specialize (Hsame (Run "" (stdout w1)) (Run "" (stdout w2)) eq_refl).
  destruct (for_each (add_file d) (Run "" (stdout w1)) file_list),
    (for_each (add_file d) (Run "" (stdout w2)) file_list);
    try done; cbn [bind fmap option_fmap option_map disk].
  - split_and!; [by rewrite Hsame|done..].
  - subst. split_and!; [done| |done]. intros e'. done.
Qed.

(** X7. An empty list still opens the destination: [combine_files] creates
    it or cuts it down to nothing, and prints nothing. *)
Theorem combine_files_nil (output_file : string) (w : world) :
  writable (disk w) output_file = true →
  combine_files [] output_file w
  = Ok (World (<[output_file := Text ""]> (disk w)) (stdout w)).
Proof.
  intros Hw.
  rewrite (combine_files_spec _ _ _ _ (open_w_writable_true _ _ Hw))
    by constructor.
  cbn. by rewrite insert_insert_eq, (right_id_L [] (++)).
Qed.

(** X8. [combine_files] writes to the destination only: when it returns,
    every other path is as it was, the destination is a text file, and the
    lines printed before are still there, in front of the new ones. *)
Theorem combine_files_frame (file_list : list string) (output_file : string)
    (w w' : world) :
  combine_files file_list output_file w = Ok w' →
  (∀ path, path ≠ output_file → disk w' !! path = disk w !! path) ∧
  (∃ content, disk w' !! output_file = Some (Text content)) ∧
  stdout w `prefix_of` stdout w'.
Proof.
  intros Hrun. destruct (combine_files_untouched _ _ _ _ Hrun) as [Hd Hs].
  split_and!; [done| |done].
  apply combine_files_inv in Hrun as (_&_&->). cbn [disk].
  rewrite lookup_insert_eq. by eexists.
Qed.

(** X9. The destination is overwritten, not appended to: from two worlds
    that differ only in what the destination held, [combine_files] ends
    the same way, and when it returns it leaves the same files.  It
    returns when every path of the list can be encoded and no [open]
    blocks. *)
Theorem combine_files_overwrites (file_list : list string)
    (output_file : string) (w1 w2 : world) :
  writable (disk w1) output_file = true →
  writable (disk w2) output_file = true →
  (∀ path, path ≠ output_file → disk w1 !! path = disk w2 !! path) →
  (∀ w1', combine_files file_list output_file w1 = Ok w1' →
     ∃ w2', combine_files file_list output_file w2 = Ok w2' ∧
       disk w1' = disk w2') ∧
  (∀ e, combine_files file_list output_file w1 = Raise e ↔
        combine_files file_list output_file w2 = Raise e) ∧
  (combine_files file_list output_file w1 = Blocks ↔
   combine_files file_list output_file w2 = Blocks) ∧
  (Forall (λ p, encodable p = true) file_list →
   Forall (λ p, read_text p (disk w1) ≠ Blocks) file_list →
   ∃ w1' w2',
     combine_files file_list output_file w1 = Ok w1' ∧
     combine_files file_list output_file w2 = Ok w2' ∧
     disk w1' = disk w2').
Proof.
  intros H1 H2 Hsame.
  assert (<[output_file := Text ""]> (disk w1)
          = <[output_file := Text ""]> (disk w2)) as Heq.
  { apply map_eq. intros path. destruct (decide (output_file = path)) as [->|Hne].
    - by rewrite !lookup_insert_eq.
    - rewrite !lookup_insert_ne by done. by apply Hsame. }
  destruct (combine_files_same_open file_list _ _ _ Heq H1 H2)
    as (Hok&Hraise&Hblock).
  assert (∀ w1', combine_files file_list output_file w1 = Ok w1' →
     ∃ w2', combine_files file_list output_file w2 = Ok w2' ∧
       disk w1' = disk w2') as Hfirst.
  { intros w1' Hw1. rewrite Hw1 in Hok.
    destruct (combine_files file_list output_file w2) as [w2'| |]; [|done..].
    exists w2'. split; [done|]. by injection Hok. }
  split_and!; [done..|]. intros Henc Hb.
  assert (Forall (λ p, passes (<[output_file := Text ""]> (disk w1)) p = true)
            file_list) as Hpass.
  { apply Forall_passes; [done|]. eapply Forall_impl; [exact Hb|].
    intros p Hp. unfold read_text in *.
    destruct (decide (output_file = p)) as [->|Hne].
    - by rewrite lookup_insert_eq.
    - by rewrite lookup_insert_ne. }
  pose proof (combine_files_spec _ _ _ _ (open_w_writable_true _ _ H1) Hpass)
    as Hw1.
  destruct (Hfirst _ Hw1) as (w2'&Hw2&Hd). eauto.
Qed.

(** X10. Lists compose: for a destination that is none of the sources,
    what [combine_files] writes for [l1 ++ l2] is what it writes for [l1]
    followed by what it writes for [l2]. *)
Theorem combine_files_app (l1 l2 : list string) (output_file : string)
    (w w1 w2 : world) (c1 c2 : string) :
  output_file ∉ l1 ++ l2 →
  combine_files l1 output_file w = Ok w1 →
  combine_files l2 output_file w = Ok w2 →
  disk w1 !! output_file = Some (Text c1) →
  disk w2 !! output_file = Some (Text c2) →
  ∃ w', combine_files (l1 ++ l2) output_file w = Ok w' ∧
    disk w' !! output_file = Some (Text (c1 +:+ c2)).
Proof.
  intros _ (Hw&Hp1&->)%combine_files_inv (_&Hp2&->)%combine_files_inv.
  cbn [disk]. rewrite !lookup_insert_eq. intros [= <-] [= <-].
  rewrite (combine_files_spec _ _ _ _ (open_w_writable_true _ _ Hw))
    by (by apply Forall_app).
  eexists. split; [done|].
  cbn [disk]. by rewrite lookup_insert_eq, fmap_app, str_concat_app.
Qed.

(** * Further properties of main *)

Lemma collected_without_output (fs : node) (l : list string) :
  collect_files INPUT_FOLDER [".tsx"; ".css"; ".ts"] INCLUDE_SUBFOLDERS fs
  = Ok l →
  OUTPUT_FILE ∉ l.
Proof.
  unfold INCLUDE_SUBFOLDERS. rewrite collect_files_recursive.
  intros [= <-]. rewrite sorted_elem_of. apply output_not_found.
Qed.

Lemma combine_files_Raise (file_list : list string) (output_file : string)
    (w : world) (e : exn) :
  combine_files file_list output_file w = Raise e ↔
  disk w !! output_file = Some (NoAccess e) ∨
  (writable (disk w) output_file = true ∧
   e = UnicodeEncodeError ∧
   ∃ before p after,
     file_list = before ++ p :: after ∧
     Forall (λ q, passes (<[output_file := Text ""]> (disk w)) q = true) before ∧
     encodable p = false).
Proof.
  unfold combine_files.
  destruct (open_w output_file (disk w)) as [d|e'|] eqn:Hd; cbn [bind].
  - pose proof (open_w_Ok_writable _ _ _ Hd) as Hw.
    apply open_w_inv in Hd as ->.
    destruct (for_each _ _ _) as [r|e'|] eqn:Hr; cbn [bind].
    + split; [done|]. intros [Hna|(_&He)].
      * unfold writable in Hw. by rewrite Hna in Hw.
      * apply (for_each_Raise _ _ (Run "" (stdout w))) in He.
        by rewrite Hr in He.
    + apply for_each_Raise in Hr as [-> Hsplit]. split.
      * intros [= <-]. by right.
      * intros [Hna|(_&->&_)]; [|done].
        unfold writable in Hw. by rewrite Hna in Hw.
    + split; [done|]. intros [Hna|(_&He)].
      * unfold writable in Hw. by rewrite Hna in Hw.
      * apply (for_each_Raise _ _ (Run "" (stdout w))) in He.
        by rewrite Hr in He.
  - unfold open_w, writable in *.
    destruct (disk w !! output_file) as [[content|e''|]|]; simplify_eq.
    split.
    + intros [= <-]. by left.
    + intros [[= <-]|(?&_)]; done.
  - unfold open_w, writable in *.
    destruct (disk w !! output_file) as [[content|e''|]|]; simplify_eq.
    split; [done|]. intros [?|(?&_)]; done.
Qed.

Lemma length_list_ascii (s : string) :
  length (list_ascii_of_string s) = String.length s.
Proof. induction s as [|c s IH]; [done|]. cbn. by rewrite IH. Qed.

Lemma list_ascii_app (a b : string) :
  list_ascii_of_string (a +:+ b)
  = list_ascii_of_string a ++ list_ascii_of_string b.
Proof.
  induction a as [|c a IH]; [done|]. rewrite app_String. cbn. by rewrite IH.
Qed.

Lemma suffix_same_length (a a' b b' : string) :
  String.length b = String.length b' → a +:+ b = a' +:+ b' → b = b'.
Proof.
  intros Hlen Heq. apply (f_equal list_ascii_of_string) in Heq.
  rewrite !list_ascii_app in Heq.
  apply app_inj_2 in Heq as [_ Heq]; [|by rewrite !length_list_ascii].
  apply (f_equal string_of_list_ascii) in Heq.
  by rewrite !string_of_list_ascii_of_string in Heq.
Qed.

Lemma js_not_matched (s : string) :
  endswith1 s ".js" = true → endswith s [".tsx"; ".css"; ".ts"] = false.
Proof.
  intros [pre ->]%endswith1_spec. unfold endswith. cbn [existsb].
  repeat apply orb_false_intro; [| | |done];
    apply not_true_is_false; intros [pre' Heq]%endswith1_spec.
  - change ".tsx" with ("." +:+ "tsx") in Heq.
    rewrite <- app_assoc_str in Heq. by apply suffix_same_length in Heq.
  - change ".css" with ("." +:+ "css") in Heq.
    rewrite <- app_assoc_str in Heq. by apply suffix_same_length in Heq.
  - by apply suffix_same_length in Heq.
Qed.

(** X11. [main] ends with an exception in two cases only, both with
    matching files found: the output file cannot be opened for writing, and
    the exception is the one [open] raised; or the output file was opened
    and the loop came, past paths it could process, to a path that UTF-8
    cannot encode, whose [print] and header stand before the [try]. *)
Theorem main_raises (fs : node) (w : world) (e : exn) :
  main fs w = Raise e ↔
  ∃ file files,
    collect_files INPUT_FOLDER [".tsx"; ".css"; ".ts"] INCLUDE_SUBFOLDERS fs
    = Ok (file :: files) ∧
    (disk w !! OUTPUT_FILE = Some (NoAccess e) ∨
     (writable (disk w) OUTPUT_FILE = true ∧
      e = UnicodeEncodeError ∧
      ∃ before p after,
        file :: files = before ++ p :: after ∧
        Forall (λ q, encodable q = true ∧ read_text q (disk w) ≠ Blocks)
          before ∧
        encodable p = false)).
Proof.
  rewrite main_spec.
  destruct (collect_files _ _ _ fs) as [[|file files]|e'|] eqn:Hl;
    cbn [bind].
  - split; [done|]. by intros (?&?&?&_).
  - pose proof (collected_without_output _ _ Hl) as Hout.
    destruct (combine_files (file :: files) OUTPUT_FILE _) as [w'|e'|] eqn:Hc;
      cbn [bind].
    + split; [done|]. intros (file'&files'&[= <- <-]&Hcase).
      assert (combine_files (file :: files) OUTPUT_FILE
                (World (disk w)
                   (stdout w ++ ["Scanning for JS and CSS files...";
                     "Found " +:+ pretty (length (file :: files)) +:+ " files"]))
              = Raise e) as Hr; [|by rewrite Hc in Hr].
      apply combine_files_Raise. cbn [disk].
      destruct Hcase as [?|(Hw&->&before&p&after&Heq&Hb&Hp)]; [by left|].
      right. split_and!; [done..|]. exists before, p, after.
      split_and!; [done| |done].
      apply passes_insert_ne.
      { intros Hin. apply Hout. rewrite Heq. apply elem_of_app. by left. }
      eapply Forall_impl; [exact Hb|]. intros q Hq. by apply passes_spec.
    + apply combine_files_Raise in Hc. cbn [disk] in Hc. split.
      * intros [= <-]. exists file, files. split; [done|].
        destruct Hc as [?|(Hw&->&before&p&after&Heq&Hb&Hp)]; [by left|].
        right. split_and!; [done..|]. exists before, p, after.
        split_and!; [done| |done].
        apply passes_insert_ne in Hb.
        -- eapply Forall_impl; [exact Hb|]. intros q Hq. by apply passes_spec.
        -- intros Hin. apply Hout. rewrite Heq. apply elem_of_app. by left.
      * intros (file'&files'&[= <- <-]&Hcase). f_equal.
        destruct Hc as [Hna|(Hw&->&_)], Hcase as [Hna'|(Hw'&->&_)];
          try done.
        -- rewrite Hna in Hna'. by injection Hna'.
        -- unfold writable in Hw'. by rewrite Hna in Hw'.
        -- unfold writable in Hw. by rewrite Hna' in Hw.
    + split; [done|]. intros (file'&files'&[= <- <-]&Hcase).
      assert (combine_files (file :: files) OUTPUT_FILE
                (World (disk w)
                   (stdout w ++ ["Scanning for JS and CSS files...";
                     "Found " +:+ pretty (length (file :: files)) +:+ " files"]))
              = Raise e) as Hr; [|by rewrite Hc in Hr].
      apply combine_files_Raise. cbn [disk].
      destruct Hcase as [?|(Hw&->&before&p&after&Heq&Hb&Hp)]; [by left|].
      right. split_and!; [done..|]. exists before, p, after.
      split_and!; [done| |done].
      apply passes_insert_ne.
      { intros Hin. apply Hout. rewrite Heq. apply elem_of_app. by left. }
      eapply Forall_impl; [exact Hb|]. intros q Hq. by apply passes_spec.
  - split; [done|]. by intros (?&?&?&_).
  - split; [done|]. by intros (?&?&?&_).
Qed.

(** X12. A scanned folder that cannot be listed (missing, not a directory,
    permission denied) is not an error for [main]: the walk yields
    nothing, and the run reports that no files were found and leaves every
    file as it was. *)
Theorem main_unlistable_folder (fs : node) (w : world) (e : exn) :
  scandir INPUT_FOLDER fs = Raise e →
  main fs w
  = Ok (World (disk w)
          (stdout w ++ ["Scanning for JS and CSS files...";
                        "Found 0 files"; "No files found."])).
Proof.
  intros He. rewrite main_spec.
  by destruct fs as [regular|entries|e'].
Qed.

(** X13. A run that finds files, from end to end, when the output file can
    be opened, every collected path can be encoded and no [open] blocks:
    the output file holds, for each collected path in order, the header
    and, when the file can be read, its content and two newlines; the
    lines printed are the scan notice, the count, one report for each path
    and the closing notice. *)
Theorem main_writes (fs : node) (w : world) (file : string)
    (files : list string) :
  writable (disk w) OUTPUT_FILE = true →
  collect_files INPUT_FOLDER [".tsx"; ".css"; ".ts"] INCLUDE_SUBFOLDERS fs
  = Ok (file :: files) →
  Forall (λ p, encodable p = true) (file :: files) →
  Forall (λ p, read_text p (disk w) ≠ Blocks) (file :: files) →
  main fs w
  = Ok (World
          (<[OUTPUT_FILE :=
               Text (str_concat
                       ((λ p, header p +:+ body (disk w) p)
                          <$> file :: files))]> (disk w))
          (stdout w
           ++ ["Scanning for JS and CSS files...";
               "Found " +:+ pretty (length (file :: files)) +:+ " files"]
           ++ ((file :: files) ≫= report (disk w))
           ++ ["
Done. Combined file saved as: " +:+ OUTPUT_FILE])).
Proof.
  intros Hw Hl Henc Hb. pose proof (collected_without_output _ _ Hl) as Hout.
  rewrite main_spec, Hl. cbn [bind].
  rewrite (combine_files_spec _ _ (World (disk w) _) _
             (open_w_writable_true _ _ Hw))
    by (by apply passes_insert_ne, Forall_passes).
  cbn [bind disk stdout]. unfold say. cbn [disk stdout].
  rewrite written_insert_ne, printed_insert_ne, insert_insert_eq by done.
  by rewrite <- !(assoc_L (++) (stdout w)), <- (assoc_L (++) [_; _]).
Qed.

(** X14. [main] touches one file only: when it returns, every path other
    than the output file is as it was, and the lines printed before are
    still there, in front of the new ones. *)
Theorem main_frame (fs : node) (w w' : world) :
  main fs w = Ok w' →
  (∀ path, path ≠ OUTPUT_FILE → disk w' !! path = disk w !! path) ∧
  stdout w `prefix_of` stdout w'.
Proof.
  rewrite main_spec.
  destruct (collect_files _ _ _ fs) as [[|file files]|e|]; cbn [bind];
    [| |done..].
  - intros [= <-]. cbn [disk stdout]. split; [done|by eexists].
  - destruct (combine_files _ _ _) as [v|e|] eqn:Hv; [|done..].
    cbn [bind]. intros [= <-].
    destruct (combine_files_untouched _ _ _ _ Hv) as [Hd [more Hs]].
    cbn [say disk stdout] in *. split; [done|].
    rewrite Hs, <- !(assoc_L (++) (stdout w)). by eexists.
Qed.

(** X15. The banner of [main] announces JS files, and its extensions are
    [.tsx], [.css] and [.ts]: a file whose lowercased name ends with [.js]
    is never among the files [main] collects. *)
Theorem main_skips_js (fs : node) (dirs : list string) (name : string)
    (regular : bool) (l : list string) :
  wf_node fs = true →
  under fs dirs name regular →
  endswith1 (lower name) ".js" = true →
  collect_files INPUT_FOLDER [".tsx"; ".css"; ".ts"] INCLUDE_SUBFOLDERS fs
  = Ok l →
  file_path INPUT_FOLDER dirs name ∉ l.
Proof.
  intros Hwf Hu Hjs Hl.
  destruct (elem_of_collect_files INPUT_FOLDER [".tsx"; ".css"; ".ts"]
              INCLUDE_SUBFOLDERS _ _ _ _ Hwf Hu) as (l'&Hl'&Hin).
  rewrite Hl in Hl'. injection Hl' as <-.
  intros [Hm _]%Hin. unfold matches in Hm.
  by rewrite (js_not_matched _ Hjs) in Hm.
Qed.

End properties.

(** * Sample runs *)

(** The scenario of the description: [a/x.ts], [b.css] and [skip.txt]. *)
Example collect_files_scenario :
  collect_files "root" [".ts"; ".css"] true
    (Dir [("skip.txt", File true); ("b.css", File true);
          ("a", Dir [("x.ts", File true)])])
  = Ok ["root/a/x.ts"; "root/b.css"].
Proof. reflexivity. Qed.

(** A name that UTF-8 cannot encode ends the loop before its [try]; a
    FIFO without a writer holds it in [open]. *)
Example combine_files_escaped_name :
  read_text escaped_path escaped_disk = Ok "A" ∧
  combine_files ["./b.css"; escaped_path] OUTPUT_FILE (World escaped_disk [])
  = Raise UnicodeEncodeError.
Proof. split; vm_compute; reflexivity. Qed.

Example combine_files_fifo :
  combine_files ["./b.css"; "./pipe.ts"] OUTPUT_FILE (World fifo_disk [])
  = Blocks.
Proof. vm_compute. reflexivity. Qed.

Example main_fifo : main fifo_tree (World fifo_disk []) = Blocks.
Proof. vm_compute. reflexivity. Qed.

Lemma collect_files_filter_witness :
  file_path "./" ["a"] "x.TS" ∈ ["./a/link.ts"; "./a/x.TS"; "./b.css"] ∧
  endswith (lower "x.TS") sample_extensions = true ∧
  matches_any_case sample_extensions "x.TS" = true ∧
  endswith (lower "x.TS") [".TS"] = false.
Proof.
  destruct (collect_files_filter "./" sample_extensions true sample_tree
              ["a"] "x.TS" true) as ((l&Hl&Hin)&Hany&Hup).
  - reflexivity.
  - eapply under_sub; [|apply under_here]; elem_here.
  - vm_compute in Hl. injection Hl as <-. split_and!.
    + apply Hin. split; [reflexivity|discriminate].
    + reflexivity.
    + rewrite Hany; [reflexivity|]. repeat constructor.
    + apply Hup. reflexivity.
Defined.

(** C1, as stated, fails: with the extension [.TS] the file [x.TS] ends
    with the extension when case is disregarded, and [collect_files] does
    not return its path. *)
Lemma collect_files_filter_counterexample :
  ¬ (∀ folder extensions recursive fs dirs name regular,
       wf_node fs = true →
       under fs dirs name regular →
       ∃ l, collect_files folder extensions recursive fs = Ok l ∧
         (file_path folder dirs name ∈ l ↔
            matches_any_case extensions name = true ∧
            (recursive = false → regular = true ∧ dirs = []))).
Proof.
  intros H.
  destruct (H "./" [".TS"] true (Dir [("x.TS", File true)]) [] "x.TS" true)
    as (l&Hl&Hin).
  - reflexivity.
  - apply under_here. elem_here.
  - vm_compute in Hl. injection Hl as <-.
    apply (not_elem_of_nil (file_path "./" [] "x.TS")), Hin.
    split; [reflexivity|done].
Qed.

Lemma collect_files_ordered_witness :
  StronglySorted str_lt ["./a/link.ts"; "./a/x.TS"; "./b.css"] ∧
  ∀ fs', reorder sample_tree fs' →
    collect_files "./" sample_extensions true fs'
    = Ok ["./a/link.ts"; "./a/x.TS"; "./b.css"].
Proof.
  apply (collect_files_ordered "./" sample_extensions true sample_tree);
    reflexivity.
Defined.

Lemma collect_files_subdirectory_witness :
  ∃ l_rec l_flat,
    collect_files "./" sample_extensions true sample_tree = Ok l_rec ∧
    collect_files "./" sample_extensions false sample_tree = Ok l_flat ∧
    file_path "./" ["a"] "x.TS" ∈ l_rec ∧
    file_path "./" ["a"] "x.TS" ∉ l_flat.
Proof.
  apply (collect_files_subdirectory "./" sample_extensions sample_tree
           "a" [] "x.TS" true).
  - reflexivity.
  - eapply under_sub; [|apply under_here]; elem_here.
  - reflexivity.
Defined.

Lemma collect_files_flat_subset_witness :
  ∃ l_rec, collect_files "./" sample_extensions true sample_tree = Ok l_rec ∧
    ∀ p, p ∈ ["./b.css"] → p ∈ l_rec.
Proof.
  apply (collect_files_flat_subset "./" sample_extensions sample_tree).
  reflexivity.
Defined.

(** C7, as stated, fails: the recursive traversal of the sample folder meets
    the error of the subdirectory that cannot be listed, and
    [collect_files] returns all the same. *)
Lemma collect_files_errors_counterexample :
  ¬ (∀ folder extensions recursive fs e,
       e ∈ traversal_errors folder recursive fs →
       ∃ e', collect_files folder extensions recursive fs = Raise e').
Proof.
  intros H.
  destruct (H "./" sample_extensions true sample_tree
              (OSError "[Errno 13] Permission denied: './locked'"))
    as [e' He'].
  - vm_compute. elem_here.
  - vm_compute in He'. discriminate.
Qed.

Lemma combine_files_blocks_witness :
  (∃ w', combine_files sample_sources.*1 OUTPUT_FILE sample_world = Ok w' ∧
     disk w' !! OUTPUT_FILE
     = Some (Text (str_concat ((λ pc, block pc.1 pc.2) <$> sample_sources))) ∧
     ∀ path, path ≠ OUTPUT_FILE →
       disk w' !! path = disk sample_world !! path) ∧
  combine_files escaped_sources.*1 OUTPUT_FILE (World escaped_disk [])
  = Raise UnicodeEncodeError.
Proof.
  split.
  - apply (combine_files_blocks sample_sources OUTPUT_FILE sample_world).
    + repeat constructor.
    + by apply (bool_decide_unpack _).
    + reflexivity.
    + repeat constructor.
  - apply (proj2 (combine_files_blocks escaped_sources OUTPUT_FILE
                    (World escaped_disk [])
                    ltac:(repeat constructor)
                    ltac:(by apply (bool_decide_unpack _))
                    eq_refl)
             [("./b.css", "B")] (escaped_path, "A") []).
    + reflexivity.
    + repeat constructor.
    + reflexivity.
Defined.

(** C3, as stated, fails: the source [escaped_path] is readable, and
    [combine_files] raises at its name. *)
Lemma combine_files_blocks_counterexample :
  ¬ (∀ sources output_file w,
       Forall (λ pc, read_text pc.1 (disk w) = Ok pc.2) sources →
       output_file ∉ sources.*1 →
       writable (disk w) output_file = true →
       ∃ w', combine_files sources.*1 output_file w = Ok w' ∧
         disk w' !! output_file
         = Some (Text (str_concat ((λ pc, block pc.1 pc.2) <$> sources)))).
Proof.
  intros H.
  destruct (H [(escaped_path, "A")] OUTPUT_FILE (World escaped_disk []))
    as (w'&Hw'&_).
  - repeat constructor.
  - by apply (bool_decide_unpack _).
  - reflexivity.
  - vm_compute in Hw'. discriminate.
Qed.

Lemma combine_files_isolates_witness :
  (∃ w', combine_files sample_files OUTPUT_FILE sample_world = Ok w' ∧
     disk w' !! OUTPUT_FILE
     = Some (Text (str_concat
                     ((λ p, header p +:+ body (disk sample_world) p)
                        <$> sample_files))) ∧
     stdout w' = stdout sample_world
                 ++ (sample_files ≫= report (disk sample_world)) ∧
     ∀ path e, path ∈ sample_files →
       read_text path (disk sample_world) = Raise e →
       body (disk sample_world) path = "" ∧
       ("Failed to read " +:+ path +:+ ": " +:+ str_exn e) ∈ stdout w') ∧
  combine_files (["./b.css"] ++ "./pipe.ts" :: ["./zz.ts"]) OUTPUT_FILE
    (World fifo_disk [])
  = Blocks ∧
  combine_files (["./gone.ts"] ++ escaped_path :: ["./b.css"]) OUTPUT_FILE
    (World escaped_disk [])
  = Raise UnicodeEncodeError.
Proof.
  split_and!.
  - apply (combine_files_isolates sample_files OUTPUT_FILE sample_world).
    + by apply (bool_decide_unpack _).
    + reflexivity.
    + by apply (bool_decide_unpack _).
    + repeat apply Forall_cons_2; try apply Forall_nil_2; by vm_compute.
  - apply (proj2 (combine_files_isolates
                    (["./b.css"] ++ "./pipe.ts" :: ["./zz.ts"]) OUTPUT_FILE
                    (World fifo_disk [])
                    ltac:(by apply (bool_decide_unpack _)) eq_refl)
             ["./b.css"] "./pipe.ts" ["./zz.ts"]).
    + reflexivity.
    + repeat constructor. by vm_compute.
    + reflexivity.
    + reflexivity.
  - apply (proj2 (combine_files_isolates
                    (["./gone.ts"] ++ escaped_path :: ["./b.css"]) OUTPUT_FILE
                    (World escaped_disk [])
                    ltac:(by apply (bool_decide_unpack _)) eq_refl)
             ["./gone.ts"] escaped_path ["./b.css"]).
    + reflexivity.
    + repeat constructor. by vm_compute.
    + reflexivity.
Defined.

(** C4, as stated, fails: the list holds a path that cannot be opened, and
    the batch is aborted all the same, by the name of the next path. *)
Lemma combine_files_isolates_counterexample :
  ¬ (∀ file_list output_file w path e,
       path ∈ file_list →
       read_text path (disk w) = Raise e →
       output_file ∉ file_list →
       writable (disk w) output_file = true →
       ∃ w', combine_files file_list output_file w = Ok w' ∧
         disk w' !! output_file
         = Some (Text (str_concat
                         ((λ p, header p +:+ body (disk w) p) <$> file_list)))).
Proof.
  intros H.
  destruct (H ["./gone.ts"; escaped_path] OUTPUT_FILE (World escaped_disk [])
              "./gone.ts" (FileNotFoundError "./gone.ts"))
    as (w'&Hw'&_).
  - elem_here.
  - reflexivity.
  - by apply (bool_decide_unpack _).
  - reflexivity.
  - vm_compute in Hw'. discriminate.
Qed.

Lemma runs_deterministic_witness :
  ∃ w2, main sample_tree sample_after = Ok w2 ∧ disk w2 = disk sample_after.
Proof.
  apply (proj1 runs_deterministic sample_tree sample_tree sample_world
           sample_after sample_after).
  - vm_compute. reflexivity.
  - apply snapshot_same.
  - reflexivity.
Defined.

Lemma main_no_files_witness :
  main other_tree sample_world
  = Ok (World (disk sample_world)
          (stdout sample_world ++ ["Scanning for JS and CSS files...";
                                   "Found 0 files"; "No files found."])).
Proof. apply (main_no_files other_tree sample_world). reflexivity. Defined.

Lemma collect_files_sound_witness :
  ∃ dirs name regular,
    under sample_tree dirs name regular ∧
    endswith (lower name) sample_extensions = true ∧
    "./b.css" = file_path "./" dirs name ∧
    (false = false → dirs = [] ∧ regular = true).
Proof.
  apply (collect_files_sound "./" sample_extensions false sample_tree
           ["./b.css"] "./b.css").
  - reflexivity.
  - elem_here.
Defined.

Lemma collect_files_special_file_witness :
  ∃ l_rec l_flat,
    collect_files "./a" sample_extensions true
      (Dir [("x.TS", File true); ("pipe.ts", File false)]) = Ok l_rec ∧
    collect_files "./a" sample_extensions false
      (Dir [("x.TS", File true); ("pipe.ts", File false)]) = Ok l_flat ∧
    join "./a" "pipe.ts" ∈ l_rec ∧
    join "./a" "pipe.ts" ∉ l_flat.
Proof.
  apply (collect_files_special_file "./a" sample_extensions
           [("x.TS", File true); ("pipe.ts", File false)] "pipe.ts").
  - reflexivity.
  - elem_here.
  - reflexivity.
Defined.

Lemma collect_files_below_folder_witness :
  startswith "./a/x.TS" "./" = true.
Proof.
  apply (collect_files_below_folder "./" sample_extensions true sample_tree
           ["./a/link.ts"; "./a/x.TS"; "./b.css"] "./a/x.TS").
  - reflexivity.
  - reflexivity.
  - elem_here.
Defined.

Lemma collect_files_extensions_union_witness :
  ∃ l1 l2,
    collect_files "./" [".tsx"] true sample_tree = Ok l1 ∧
    collect_files "./" [".css"; ".ts"] true sample_tree = Ok l2 ∧
    ∀ p, p ∈ ["./a/link.ts"; "./a/x.TS"; "./b.css"] ↔ p ∈ l1 ∨ p ∈ l2.
Proof.
  apply (collect_files_extensions_union "./" [".tsx"] [".css"; ".ts"] true
           sample_tree).
  reflexivity.
Defined.

Lemma collect_files_empty_extension_witness :
  ∃ l, collect_files "./" [".css"; ""] true sample_tree = Ok l ∧
    file_path "./" [] "skip.txt" ∈ l.
Proof.
  apply (collect_files_empty_extension "./" [".css"; ""] sample_tree
           [] "skip.txt" true).
  - elem_here.
  - apply under_here. elem_here.
Defined.

Lemma collect_files_ignores_others_witness :
  collect_files "./" sample_extensions true
    (Dir ([("b.css", File true)] ++ ("skip.txt", File true) :: []))
  = collect_files "./" sample_extensions true (Dir ([("b.css", File true)] ++ [])).
Proof.
  apply (collect_files_ignores_others "./" sample_extensions true
           [("b.css", File true)] [] "skip.txt" true).
  reflexivity.
Defined.

Lemma combine_files_nil_witness :
  combine_files [] OUTPUT_FILE sample_world
  = Ok (World (<[OUTPUT_FILE := Text ""]> (disk sample_world))
          (stdout sample_world)).
Proof. apply (combine_files_nil OUTPUT_FILE sample_world). reflexivity. Defined.

Lemma combine_files_frame_witness :
  (∀ path, path ≠ OUTPUT_FILE →
     disk sample_combined !! path = disk earlier_world !! path) ∧
  (∃ content, disk sample_combined !! OUTPUT_FILE = Some (Text content)) ∧
  stdout earlier_world `prefix_of` stdout sample_combined.
Proof.
  apply (combine_files_frame sample_files OUTPUT_FILE earlier_world
           sample_combined).
  vm_compute. reflexivity.
Defined.

Lemma combine_files_overwrites_witness :
  ∃ w1' w2',
    combine_files sample_files OUTPUT_FILE sample_world = Ok w1' ∧
    combine_files sample_files OUTPUT_FILE
      (World (<[OUTPUT_FILE := Text "other"]> sample_disk) ["earlier"])
    = Ok w2' ∧
    disk w1' = disk w2'.
Proof.
  destruct (combine_files_overwrites sample_files OUTPUT_FILE sample_world
              (World (<[OUTPUT_FILE := Text "other"]> sample_disk) ["earlier"]))
    as (_&_&_&Hreturns).
  - reflexivity.
  - reflexivity.
  - intros path Hne. cbn [disk sample_world]. by rewrite lookup_insert_ne.
  - apply Hreturns.
    + by apply (bool_decide_unpack _).
    + repeat apply Forall_cons_2; try apply Forall_nil_2; by vm_compute.
Defined.

Lemma combine_files_app_witness :
  ∃ w', combine_files (["./a/x.TS"] ++ ["./b.css"]) OUTPUT_FILE sample_world
        = Ok w' ∧
    disk w' !! OUTPUT_FILE
    = Some (Text (block "./a/x.TS" "A" +:+ block "./b.css" "B")).
Proof.
  apply (combine_files_app ["./a/x.TS"] ["./b.css"] OUTPUT_FILE sample_world
           (World (<[OUTPUT_FILE := Text (block "./a/x.TS" "A")]> sample_disk)
              ["Adding: ./a/x.TS"])
           (World (<[OUTPUT_FILE := Text (block "./b.css" "B")]> sample_disk)
              ["Adding: ./b.css"])).
  - by apply (bool_decide_unpack _).
  - vm_compute. reflexivity.
  - vm_compute. reflexivity.
  - apply lookup_insert_eq.
  - apply lookup_insert_eq.
Defined.

Lemma main_raises_witness :
  main escaped_tree (World escaped_disk []) = Raise UnicodeEncodeError ∧
  main sample_tree
    (World {[ OUTPUT_FILE := NoAccess (OSError "[Errno 13] Permission denied") ]}
       [])
  = Raise (OSError "[Errno 13] Permission denied").
Proof.
  split.
  - apply (main_raises escaped_tree (World escaped_disk []) UnicodeEncodeError).
    exists "./b.css", [escaped_path]. split; [reflexivity|]. right.
    split_and!; [reflexivity..|].
    exists ["./b.css"], escaped_path, []. split_and!; [reflexivity| |reflexivity].
    repeat constructor. by vm_compute.
  - apply (main_raises sample_tree _ (OSError "[Errno 13] Permission denied")).
    exists "./a/link.ts", ["./a/x.TS"; "./b.css"].
    split; [reflexivity|]. left. reflexivity.
Defined.

Lemma main_unlistable_folder_witness :
  main (Unlistable (FileNotFoundError INPUT_FOLDER)) sample_world
  = Ok (World (disk sample_world)
          (stdout sample_world ++ ["Scanning for JS and CSS files...";
                                   "Found 0 files"; "No files found."])).
Proof.
  apply (main_unlistable_folder (Unlistable (FileNotFoundError INPUT_FOLDER))
           sample_world (FileNotFoundError INPUT_FOLDER)).
  reflexivity.
Defined.

Lemma main_writes_witness :
  main sample_tree sample_world
  = Ok (World
          (<[OUTPUT_FILE :=
               Text (str_concat
                       ((λ p, header p +:+ body (disk sample_world) p)
                          <$> "./a/link.ts" :: ["./a/x.TS"; "./b.css"]))]>
             (disk sample_world))
          (stdout sample_world
           ++ ["Scanning for JS and CSS files...";
               "Found "
               +:+ pretty (length ("./a/link.ts" :: ["./a/x.TS"; "./b.css"]))
               +:+ " files"]
           ++ (("./a/link.ts" :: ["./a/x.TS"; "./b.css"])
                 ≫= report (disk sample_world))
           ++ ["
Done. Combined file saved as: " +:+ OUTPUT_FILE])).
Proof.
  apply (main_writes sample_tree sample_world "./a/link.ts"
           ["./a/x.TS"; "./b.css"]).
  - reflexivity.
  - reflexivity.
  - by apply (bool_decide_unpack _).
  - repeat apply Forall_cons_2; try apply Forall_nil_2; by vm_compute.
Defined.

Lemma main_frame_witness :
  (∀ path, path ≠ OUTPUT_FILE →
     disk sample_after !! path = disk sample_world !! path) ∧
  stdout sample_world `prefix_of` stdout sample_after.
Proof.
  apply (main_frame sample_tree sample_world sample_after).
  vm_compute. reflexivity.
Defined.

Lemma main_skips_js_witness :
  file_path INPUT_FOLDER ["src"] "app.JS" ∉ ["./src/app.ts"].
Proof.
  apply (main_skips_js
           (Dir [("src", Dir [("app.JS", File true); ("app.ts", File true)])])
           ["src"] "app.JS" true).
  - reflexivity.
  - eapply under_sub; [|apply under_here]; elem_here.
  - reflexivity.
  - reflexivity.
Defined.
